(** * HRW placement and mountpath lifecycle of a storage target

    A shallow embedding of [dfc/hrw.go] ([hrwTarget]) and of the
    [fsprungroup] mountpath wrappers ([enableMountpath], [disableMountpath],
    [addMountpath], [removeMountpath] and their helpers), followed by the
    properties of the specification stated over that embedding. *)

From Stdlib Require Import ZArith Lia.
From stdpp Require Import gmap strings list.

Local Open Scope Z_scope.

(** ** The 32-bit digest

    [hrwTarget] calls [xxhash.ChecksumString32S] of the third-party package
    [github.com/OneOfOne/xxhash], which computes the public XXH32 digest.
    The package is not part of this repository; the definitions below follow
    the published XXH32 algorithm and are validated against published
    digests further down. [uint32] values are [Z] in [0, 2^32) with the
    wrap-around of every arithmetic operation written as [u32]. *)
Module XXHash32.

Definition prime32x1 : Z := 2654435761.
Definition prime32x2 : Z := 2246822519.
Definition prime32x3 : Z := 3266489917.
Definition prime32x4 : Z := 668265263.
Definition prime32x5 : Z := 374761393.

Definition u32 (x : Z) : Z := x mod 2 ^ 32.

Definition rotl32 (x r : Z) : Z :=
  u32 (Z.lor (Z.shiftl x r) (Z.shiftr x (32 - r))).

(** little-endian load of four bytes *)
Definition le32 (b0 b1 b2 b3 : Z) : Z :=
  Z.lor (Z.lor b0 (Z.shiftl b1 8)) (Z.lor (Z.shiftl b2 16) (Z.shiftl b3 24)).

Definition round (acc input : Z) : Z :=
  u32 (rotl32 (u32 (acc + input * prime32x2)) 13 * prime32x1).

(** the four-lane loop over whole 16-byte stripes; returns the lanes and
    the bytes that are left *)
Fixpoint stripes (v1 v2 v3 v4 : Z) (p : list Z) : (Z * Z * Z * Z) * list Z :=
  match p with
  | a0 :: a1 :: a2 :: a3 :: b0 :: b1 :: b2 :: b3 ::
    c0 :: c1 :: c2 :: c3 :: d0 :: d1 :: d2 :: d3 :: rest =>
      stripes (round v1 (le32 a0 a1 a2 a3)) (round v2 (le32 b0 b1 b2 b3))
              (round v3 (le32 c0 c1 c2 c3)) (round v4 (le32 d0 d1 d2 d3)) rest
  | _ => ((v1, v2, v3, v4), p)
  end.

(** the tail: whole 4-byte words first, then single bytes *)
Fixpoint tail_words (h : Z) (p : list Z) : Z * list Z :=
  match p with
  | b0 :: b1 :: b2 :: b3 :: rest =>
      tail_words (u32 (rotl32 (u32 (h + le32 b0 b1 b2 b3 * prime32x3)) 17 * prime32x4)) rest
  | _ => (h, p)
  end.

Fixpoint tail_bytes (h : Z) (p : list Z) : Z :=
  match p with
  | b :: rest => tail_bytes (u32 (rotl32 (u32 (h + b * prime32x5)) 11 * prime32x1)) rest
  | [] => h
  end.

Definition avalanche (h : Z) : Z :=
  let h := Z.lxor h (Z.shiftr h 15) in
  let h := u32 (h * prime32x2) in
  let h := Z.lxor h (Z.shiftr h 13) in
  let h := u32 (h * prime32x3) in
  Z.lxor h (Z.shiftr h 16).

Definition Checksum32S (p : list Z) (seed : Z) : Z :=
  let n := Z.of_nat (length p) in
  let '(h, rest) :=
    if (16 <=? n)%Z then
      let '((v1, v2, v3, v4), rest) :=
        stripes (u32 (seed + prime32x1 + prime32x2)) (u32 (seed + prime32x2))
                (u32 seed) (u32 (seed - prime32x1)) p in
      (u32 (rotl32 v1 1 + rotl32 v2 7 + rotl32 v3 12 + rotl32 v4 18), rest)
    else (u32 (seed + prime32x5), p) in
  let h := u32 (h + n) in
  let '(h, rest) := tail_words h rest in
  avalanche (tail_bytes h rest).

(** a Go string is its byte sequence *)
Fixpoint bytes_of (s : string) : list Z :=
  match s with
  | EmptyString => []
  | String c s' => Z.of_N (Ascii.N_of_ascii c) :: bytes_of s'
  end.

Definition ChecksumString32S (s : string) (seed : Z) : Z :=
  Checksum32S (bytes_of s) seed.

End XXHash32.

Local Open Scope string_scope.
Local Open Scope list_scope.

(** ** HRW placement ([dfc/hrw.go]) *)

Definition LCG32 : Z := 1103515245.

(** Modelled from the spec: the declaration of [daemonInfo] (the spec's
    Node) is not under src/. A node has an id, a role and the two flag bits
    Maintenance and Decommission. *)
Inductive role := Proxy | Target.

Global Instance role_eq_dec : EqDecision role.
Proof. solve_decision. Defined.

Record daemonInfo := {
  DaemonID : string;
  Role : role;
  Maintenance : bool;
  Decommission : bool
}.

Global Instance daemonInfo_eq_dec : EqDecision daemonInfo.
Proof. solve_decision. Defined.

(** [smap.Smap] is a Go map from node id to node. A [range] over a Go map
    visits every entry once, in an order the language leaves unspecified:
    an iteration order of [m] is any permutation of its entries. *)
Definition range_order (m : gmap string daemonInfo)
    (order : list (string * daemonInfo)) : Prop :=
  order ≡ₚ map_to_list m.

(** the weight of the node stored under key [id] for object [name] *)
Definition weight (name id : string) : Z :=
  XXHash32.ChecksumString32S (id +:+ ":" +:+ name) LCG32.

(** One turn of the loop body of [hrwTarget]; the loop state is the pair
    [(max, si)], with [None] for the nil pointer. *)
Definition hrw_step (name : string) (st : Z * option daemonInfo)
    (entry : string * daemonInfo) : Z * option daemonInfo :=
  let '(max, si) := st in
  let '(id, sinfo) := entry in
  let cs := XXHash32.ChecksumString32S (id +:+ ":" +:+ name) LCG32 in
  if (cs >? max)%Z then (cs, Some sinfo) else (max, si).

(** [hrwTarget name smap], run with the entries visited in [order] *)
Definition hrwTarget (name : string) (order : list (string * daemonInfo))
    : option daemonInfo :=
  snd (foldl (hrw_step name) (0, None) order).

(** ** Mountpath lifecycle ([fsprungroup]) *)

(** a Go [error] value is represented by its message; [None] is [nil] *)
Definition error : Type := string.

(** Modelled from the spec: the declaration of [fs.MountpathInfo] is not
    under src/. A mountpath descriptor has its canonical path (the key) and
    the identity of the filesystem it lives on. *)
Record MountpathInfo := { Path : string; Fsid : Z }.

Global Instance MountpathInfo_eq_dec : EqDecision MountpathInfo.
Proof. solve_decision. Defined.

(** Modelled from the spec: the FS Registry of package [fs] is not under
    src/. It holds two disjoint sets of mountpaths keyed by path. *)
Record registry := {
  available : gmap string MountpathInfo;
  disabled : gmap string MountpathInfo
}.

(** what a [go] statement of the wrappers hands to the scheduler *)
Inductive task :=
  | ResilverAndMakeNCopies (reason : string)
  | EvictLomCache (mpath : MountpathInfo).

(** the observable actions of a wrapper, in the order they happen *)
Inductive event :=
  | GfnActivate
  | GfnDeactivate
  | AbortAllMountpathsXactions
  | Go (t : task)
  | Infof (format : string) (args : list string)
  | Errorf (format : string) (args : list string)
  | SelfEnable
  | SelfDisable
  | BmdPersist
  | CreateNewVMD (id : string)
  | ExitLogf (format : string) (args : list string)
  | RunResilver (uuid : string) (skipGlobMisplaced : bool)
  | RenewMakeNCopies (tag : string).

Global Instance task_eq_dec : EqDecision task.
Proof. solve_decision. Defined.
Global Instance event_eq_dec : EqDecision event.
Proof. solve_decision. Defined.

(** The state a wrapper acts on: the GFN flag [g.t.gfn.local], the
    registry, and the actions performed so far. *)
Record world := {
  gfn : bool;
  mfs : registry;
  trace : list event
}.

(** What the collaborators answer during one call of a wrapper. Each of
    them is asked at most once per call, so one answer each covers every
    behaviour of the environment. *)
Record env := {
  tid : string;                  (* g.t.si.ID() *)
  si : string;                   (* g.t.si as printed by %s *)
  stat_fsid : string -> Z;       (* the filesystem a path lives on *)
  hasEnoughBMDCopies : bool;
  bmd_persist_result : option error;
  CreateNewVMD_result : option error;
  enable_result : option error;  (* g.t.enable() *)
  disable_result : option error; (* g.t.disable() *)
  Resilver_Enabled : bool        (* cmn.GCO.Get().Resilver.Enabled *)
}.

(** A call either returns to its caller or ends the process
    ([cos.ExitLogf]); the state is threaded through either way. *)
Inductive outcome (A : Type) :=
  | Returns (a : A)
  | Exits.
Arguments Returns {A} a.
Arguments Exits {A}.

Definition M (A : Type) : Type := world -> outcome A * world.

Global Instance M_ret : MRet M := fun A a w => (Returns a, w).
Global Instance M_bind : MBind M := fun A B k m w =>
  match m w with
  | (Returns a, w') => k a w'
  | (Exits, w') => (Exits, w')
  end.

Definition emit (ev : event) : M unit := fun w =>
  (Returns tt, {| gfn := gfn w; mfs := mfs w; trace := trace w ++ [ev] |}).

(** Modelled from the spec: the GFN of [g.t.gfn.local] is not under src/.
    [Activate] sets the flag and returns whether it was already active (the
    wrappers bind the result to [gfnActive]); [Deactivate] clears it. The
    reference counting of nested activations is not modelled: the wrappers
    call [Deactivate] only for an activation of their own. *)
Definition gfn_Activate : M bool := fun w =>
  (Returns (gfn w),
   {| gfn := true; mfs := mfs w; trace := trace w ++ [GfnActivate] |}).

Definition gfn_Deactivate : M unit := fun w =>
  (Returns tt,
   {| gfn := false; mfs := mfs w; trace := trace w ++ [GfnDeactivate] |}).

(** [cos.ExitLogf]: log and terminate the process *)
Definition cos_ExitLogf {A : Type} (format : string) (args : list string) : M A :=
  fun w => (Exits, {| gfn := gfn w; mfs := mfs w;
                      trace := trace w ++ [ExitLogf format args] |}).

(** [debug.AssertNoErr] is compiled out of production builds *)
Definition debug_AssertNoErr (err : error) : M unit := mret tt.

Definition glog_Infof (format : string) (args : list string) : M unit :=
  emit (Infof format args).
Definition glog_Errorf (format : string) (args : list string) : M unit :=
  emit (Errorf format args).

(** [go f()] only schedules [f]; the wrapper does not wait for it *)
Definition go (t : task) : M unit := emit (Go t).

(** what a scheduled task does once it runs (the bodies of the [go func]
    literals of [addMpathEvent] and [delMpathEvent]) *)
Definition task_body (e : env) (t : task) : list event :=
  match t with
  | ResilverAndMakeNCopies reason =>
      (if Resilver_Enabled e then [RunResilver "" false] else [])
      ++ [RenewMakeNCopies reason]
  | EvictLomCache _ => []
  end.

(** *** The FS Registry *)

(** the decision a mutator takes on the current registry: a real
    transition (with the descriptor and the registry to publish), nothing
    to do, or a refusal *)
Inductive verdict :=
  | Transition (mi : MountpathInfo) (next : registry)
  | Noop
  | Refused (err : error).

Definition EEXIST : error := "EEXIST".
Definition EDUPFS : error := "EDUPFS".
Definition ENOENT : error := "ENOENT".

(** Modelled from the spec: [fs.Add] is not under src/. The path must be
    unknown and its filesystem unused among the available mountpaths. *)
Definition Add_verdict (mpath : string) (fsid : Z) (r : registry) : verdict :=
  match available r !! mpath, disabled r !! mpath with
  | None, None =>
      if bool_decide (map_Exists (fun _ mi => Fsid mi = fsid) (available r))
      then Refused EDUPFS
      else let mi := {| Path := mpath; Fsid := fsid |} in
           Transition mi {| available := <[mpath := mi]> (available r);
                            disabled := disabled r |}
  | _, _ => Refused EEXIST
  end.

(** Modelled from the spec: [fs.Remove] is not under src/. A path in
    either set becomes absent; an unknown path is refused. *)
Definition Remove_verdict (mpath : string) (r : registry) : verdict :=
  match available r !! mpath, disabled r !! mpath with
  | Some mi, _ =>
      Transition mi {| available := delete mpath (available r);
                       disabled := disabled r |}
  | None, Some mi =>
      Transition mi {| available := available r;
                       disabled := delete mpath (disabled r) |}
  | None, None => Refused ENOENT
  end.

(** Modelled from the spec: [fs.Enable] is not under src/. A disabled
    path becomes available; an already enabled one is a no-op. *)
Definition Enable_verdict (mpath : string) (r : registry) : verdict :=
  match disabled r !! mpath, available r !! mpath with
  | Some mi, _ =>
      Transition mi {| available := <[mpath := mi]> (available r);
                       disabled := delete mpath (disabled r) |}
  | None, Some _ => Noop
  | None, None => Refused ENOENT
  end.

(** Modelled from the spec: [fs.Disable] is not under src/. An available
    path becomes disabled; an already disabled one is a no-op. *)
Definition Disable_verdict (mpath : string) (r : registry) : verdict :=
  match available r !! mpath, disabled r !! mpath with
  | Some mi, _ =>
      Transition mi {| available := delete mpath (available r);
                       disabled := <[mpath := mi]> (disabled r) |}
  | None, Some _ => Noop
  | None, None => Refused ENOENT
  end.

Definition publish (next : registry) : M unit := fun w =>
  (Returns tt, {| gfn := gfn w; mfs := next; trace := trace w |}).

(** Modelled from the spec: every mutator runs its hook exactly once on a
    real transition, before the new registry is published, and returns the
    descriptor; a no-op returns [(nil, nil)], a refusal [(nil, err)]. *)
Definition commit (v : verdict) (hook : M unit)
    : M (option MountpathInfo * option error) :=
  match v with
  | Transition mi next => hook ;; publish next ;; mret (Some mi, None)
  | Noop => mret (None, None)
  | Refused err => mret (None, Some err)
  end.

Definition fs_Add (e : env) (mpath tid : string) (hook : M unit)
    : M (option MountpathInfo * option error) :=
  fun w => commit (Add_verdict mpath (stat_fsid e mpath) (mfs w)) hook w.

Definition fs_Remove (mpath : string) (hook : M unit)
    : M (option MountpathInfo * option error) :=
  fun w => commit (Remove_verdict mpath (mfs w)) hook w.

Definition fs_Enable (mpath : string) (hook : M unit)
    : M (option MountpathInfo * option error) :=
  fun w => commit (Enable_verdict mpath (mfs w)) hook w.

Definition fs_Disable (mpath : string) (hook : M unit)
    : M (option MountpathInfo * option error) :=
  fun w => commit (Disable_verdict mpath (mfs w)) hook w.

(** [fs.Get]: the snapshot pair [(available, disabled)] *)
Definition fs_Get : M (gmap string MountpathInfo * gmap string MountpathInfo) :=
  fun w => (Returns (available (mfs w), disabled (mfs w)), w).

(** *** Collaborators of the target *)

Definition xreg_AbortAllMountpathsXactions : M unit :=
  emit AbortAllMountpathsXactions.

Definition bmd_persist (e : env) : M (option error) :=
  emit BmdPersist ;; mret (bmd_persist_result e).

Definition fs_CreateNewVMD (e : env) (id : string) : M (option error) :=
  emit (CreateNewVMD id) ;; mret (CreateNewVMD_result e).

Definition t_enable (e : env) : M (option error) :=
  emit SelfEnable ;; mret (enable_result e).

Definition t_disable (e : env) : M (option error) :=
  emit SelfDisable ;; mret (disable_result e).

(** *** The wrappers, from the source *)

Definition addMpathAct : string := "Added".
Definition enableMpathAct : string := "Enabled".
Definition removeMpathAct : string := "Removed".
Definition disableMpathAct : string := "Disabled".

Definition redistributeMD (e : env) : M unit :=
  (if negb (hasEnoughBMDCopies e) then
     err ← bmd_persist e;
     match err with
     | Some err => debug_AssertNoErr err ;; cos_ExitLogf "%v" [err]
     | None => mret tt
     end
   else mret tt) ;;
  err ← fs_CreateNewVMD e (tid e);
  match err with
  | Some err => debug_AssertNoErr err ;; cos_ExitLogf "%v" [err]
  | None => mret tt
  end.

Definition checkZeroMountpaths (e : env) (action : string) : M bool :=
  '(availablePaths, _) ← fs_Get;
  if (0 <? size availablePaths)%nat then mret false
  else
    err ← t_disable e;
    match err with
    | Some err =>
        glog_Errorf
          "%s the last available mountpath, failed to unregister target %s (self), err: %v"
          [action; si e; err]
    | None =>
        glog_Errorf "%s the last available mountpath and unregistered target %s (self)"
          [action; si e]
    end ;;
    mret true.

Definition checkEnable (e : env) (action mpath : string) : M unit :=
  '(availablePaths, _) ← fs_Get;
  if (1 <? size availablePaths)%nat then
    glog_Infof "%s mountpath %s" [action; mpath]
  else
    glog_Infof "%s the first mountpath %s" [action; mpath] ;;
    err ← t_enable e;
    match err with
    | Some err => glog_Errorf "Failed to re-register %s (self), err: %v" [si e; err]
    | None => mret tt
    end.

Definition addMpathEvent (e : env) (action : string) (mpath : MountpathInfo)
    : M unit :=
  xreg_AbortAllMountpathsXactions ;;
  go (ResilverAndMakeNCopies "add-mp") ;;
  checkEnable e action (Path mpath).

Definition delMpathEvent (e : env) (action : string) (mpath : MountpathInfo)
    : M unit :=
  xreg_AbortAllMountpathsXactions ;;
  go (EvictLomCache mpath) ;;
  unregistered ← checkZeroMountpaths e action;
  if (unregistered : bool) then mret tt
  else go (ResilverAndMakeNCopies "del-mp").

Definition enableMountpath (e : env) (mpath : string) : M (bool * option error) :=
  gfnActive ← gfn_Activate;
  '(enabledMpath, err) ← fs_Enable mpath (redistributeMD e);
  match err, enabledMpath with
  | None, Some enabledMpath =>
      addMpathEvent e enableMpathAct enabledMpath ;;
      mret (true, None)
  | _, _ =>
      (if negb gfnActive then gfn_Deactivate else mret tt) ;;
      mret (false, err)
  end.

Definition disableMountpath (e : env) (mpath : string) : M (bool * option error) :=
  gfnActive ← gfn_Activate;
  '(disabledMpath, err) ← fs_Disable mpath (redistributeMD e);
  match err, disabledMpath with
  | None, Some disabledMpath =>
      delMpathEvent e disableMpathAct disabledMpath ;;
      mret (true, None)
  | _, _ =>
      (if negb gfnActive then gfn_Deactivate else mret tt) ;;
      mret (false, err)
  end.

Definition addMountpath (e : env) (mpath : string) : M (option error) :=
  gfnActive ← gfn_Activate;
  '(addedMpath, err) ← fs_Add e mpath (tid e) (redistributeMD e);
  match err, addedMpath with
  | None, Some addedMpath =>
      addMpathEvent e addMpathAct addedMpath ;;
      mret err
  | _, _ =>
      (if negb gfnActive then gfn_Deactivate else mret tt) ;;
      mret err
  end.

Definition removeMountpath (e : env) (mpath : string) : M (option error) :=
  gfnActive ← gfn_Activate;
  '(removedMpath, err) ← fs_Remove mpath (redistributeMD e);
  match err, removedMpath with
  | None, Some removedMpath =>
      delMpathEvent e removeMpathAct removedMpath ;;
      mret err
  | _, _ =>
      (if negb gfnActive then gfn_Deactivate else mret tt) ;;
      mret err
  end.

(** *** The four operations, uniformly *)

Inductive mpath_op := OpAdd | OpRemove | OpEnable | OpDisable.

(** what a wrapper hands back: [enableMountpath] and [disableMountpath]
    return [(bool, error)], [addMountpath] and [removeMountpath] return
    [error] alone *)
Inductive returned :=
  | ChangedErr (changed : bool) (err : option error)
  | ErrOnly (err : option error).

Definition run_op (e : env) (op : mpath_op) (mpath : string) : M returned :=
  match op with
  | OpAdd => err ← addMountpath e mpath; mret (ErrOnly err)
  | OpRemove => err ← removeMountpath e mpath; mret (ErrOnly err)
  | OpEnable => '(enabled, err) ← enableMountpath e mpath; mret (ChangedErr enabled err)
  | OpDisable => '(disabled, err) ← disableMountpath e mpath; mret (ChangedErr disabled err)
  end.

(** the registry's decision for an operation *)
Definition verdict_of (e : env) (op : mpath_op) (mpath : string) (r : registry)
    : verdict :=
  match op with
  | OpAdd => Add_verdict mpath (stat_fsid e mpath) r
  | OpRemove => Remove_verdict mpath r
  | OpEnable => Enable_verdict mpath r
  | OpDisable => Disable_verdict mpath r
  end.

Definition action_of (op : mpath_op) : string :=
  match op with
  | OpAdd => addMpathAct
  | OpRemove => removeMpathAct
  | OpEnable => enableMpathAct
  | OpDisable => disableMpathAct
  end.

(** *** Vocabulary of the statements below *)

(** the state after some more actions *)
Definition add_events (w : world) (evs : list event) : world :=
  {| gfn := gfn w; mfs := mfs w; trace := trace w ++ evs |}.

(** what a mutator hands back for a verdict: [(descriptor|nil, error)] *)
Definition mutator_returns (v : verdict) : option MountpathInfo * option error :=
  match v with
  | Transition mi _ => (Some mi, None)
  | Noop => (None, None)
  | Refused err => (None, Some err)
  end.

(** no persistence step of the hook fails *)
Definition hook_returns (e : env) : bool :=
  (hasEnoughBMDCopies e || bool_decide (bmd_persist_result e = None))
  && bool_decide (CreateNewVMD_result e = None).

(** the actions of a hook that returns *)
Definition hook_events (e : env) : list event :=
  (if hasEnoughBMDCopies e then [] else [BmdPersist]) ++ [CreateNewVMD (tid e)].

(** ** Concrete targets used in the examples *)

Definition env0 : env :=
  {| tid := "t1"; si := "t[t1]";
     stat_fsid := fun mpath => Z.of_nat (String.length mpath);
     hasEnoughBMDCopies := false;
     bmd_persist_result := None;
     CreateNewVMD_result := None;
     enable_result := Some "connection refused";
     disable_result := Some "connection refused";
     Resilver_Enabled := true |}.

Definition m1 : MountpathInfo := {| Path := "/m1"; Fsid := 3 |}.

Definition no_mountpaths : registry := {| available := ∅; disabled := ∅ |}.
Definition only_m1 : registry := {| available := {["/m1" := m1]}; disabled := ∅ |}.

(** a target without mountpaths, GFN clear *)
Definition w0 : world := {| gfn := false; mfs := no_mountpaths; trace := [] |}.
(** a target with the single mountpath [/m1], GFN clear *)
Definition w1 : world := {| gfn := false; mfs := only_m1; trace := [] |}.

(** ** Concrete cluster maps used in the examples *)

Definition mk_target (id : string) : daemonInfo :=
  {| DaemonID := id; Role := Target; Maintenance := false; Decommission := false |}.

Definition decommissioned (id : string) : daemonInfo :=
  {| DaemonID := id; Role := Target; Maintenance := false; Decommission := true |}.

(** two targets whose weights for object ["obj"] coincide *)
Definition tie_smap : gmap string daemonInfo :=
  <["t5974" := mk_target "t5974"]> {["t103507" := mk_target "t103507"]}.

Definition tie_order1 : list (string * daemonInfo) :=
  [("t5974", mk_target "t5974"); ("t103507", mk_target "t103507")].

Definition tie_order2 : list (string * daemonInfo) :=
  [("t103507", mk_target "t103507"); ("t5974", mk_target "t5974")].

(** two targets of different weight for object ["obj"] *)
Definition ab_smap : gmap string daemonInfo :=
  <["a" := mk_target "a"]> {["b" := mk_target "b"]}.

Definition ab_order : list (string * daemonInfo) :=
  [("b", mk_target "b"); ("a", mk_target "a")].

(** ** The mountpath picker ([hrwMpath], [dfc/hrw.go]) *)

(** [ctx.mountpaths] is a Go map keyed by path, and [hrwMpath] ranges over
    its keys: an iteration order is any permutation of the keys. The type
    of the values, which the loop ignores, is left open. *)
Definition mpath_order {V : Type} (mountpaths : gmap string V)
    (order : list string) : Prop :=
  order ≡ₚ (map_to_list mountpaths).*1.

(** one turn of the loop body of [hrwMpath]; the loop state is [(max, mpath)] *)
Definition hrw_mpath_step (name : string) (st : Z * string) (path : string)
    : Z * string :=
  let '(max, mpath) := st in
  let cs := XXHash32.ChecksumString32S (path +:+ ":" +:+ name) LCG32 in
  if (cs >? max)%Z then (cs, path) else (max, mpath).

(** [hrwMpath name], run with the keys visited in [order] *)
Definition hrwMpath (name : string) (order : list string) : string :=
  snd (foldl (hrw_mpath_step name) (0, "") order).

(** two mountpaths of different weight for object ["obj"] *)
Definition two_mountpaths : gmap string unit := <["/m1" := tt]> {["/m2" := tt]}.

Definition two_mountpaths_order : list string := ["/m2"; "/m1"].

(** a cluster map whose only target has weight 0 for object ["obj"] *)
Definition zero_smap : gmap string daemonInfo :=
  {["t2396349751" := mk_target "t2396349751"]}.

Definition zero_order : list (string * daemonInfo) :=
  [("t2396349751", mk_target "t2396349751")].

(** the cluster map with target [b] alone *)
Definition b_smap : gmap string daemonInfo := {["b" := mk_target "b"]}.
Definition b_order : list (string * daemonInfo) := [("b", mk_target "b")].

Definition a_order : list (string * daemonInfo) := [("a", mk_target "a")].

(** the actions of the hook, whether it returns or ends the process *)
Definition hook_trace (e : env) : list event :=
  (if hasEnoughBMDCopies e then [] else [BmdPersist]) ++
  match (if hasEnoughBMDCopies e then None else bmd_persist_result e) with
  | Some err => [ExitLogf "%v" [err]]
  | None =>
      CreateNewVMD (tid e) ::
      match CreateNewVMD_result e with
      | Some err => [ExitLogf "%v" [err]]
      | None => []
      end
  end.

(** a target whose VMD cannot be written *)
Definition env_vmd_fails : env :=
  {| tid := "t1"; si := "t[t1]";
     stat_fsid := fun mpath => Z.of_nat (String.length mpath);
     hasEnoughBMDCopies := true;
     bmd_persist_result := None;
     CreateNewVMD_result := Some "no space left on device";
     enable_result := None;
     disable_result := None;
     Resilver_Enabled := true |}.

(** a target with the single mountpath [/m1], GFN set by somebody else *)
Definition w1_gfn : world := {| gfn := true; mfs := only_m1; trace := [] |}.

(** ** CLI utilities ([cmd/cli/commands/utils.go]) *)

From Stdlib Require Import Ascii.

(** *** Go strings

    A Go string is a sequence of bytes. Indexing and slicing out of range
    panic: the operations below return [None] then. *)

Definition bytes (s : string) : list Ascii.ascii := String.list_ascii_of_string s.

(** [len(s)] *)
Definition len (s : string) : Z := Z.of_nat (String.length s).

(** [s[i]] *)
Definition at_index (s : string) (i : Z) : option Ascii.ascii :=
  if bool_decide (0 <= i < len s) then bytes s !! Z.to_nat i else None.

(** [s[lo:hi]] *)
Definition slice (s : string) (lo hi : Z) : option string :=
  if bool_decide (0 <= lo <= hi /\ hi <= len s)
  then Some (String.string_of_list_ascii (take (Z.to_nat (hi - lo)) (drop (Z.to_nat lo) (bytes s))))
  else None.

(** *** [isJSON] *)

(** [None] is a run-time panic (slice bounds out of range) *)
Definition isJSON (arg : string) : option bool :=
  let possibleJSON := arg in
  if bool_decide (possibleJSON = "") then Some false
  else
    first ← at_index possibleJSON 0;
    quoted ← (if bool_decide (first = "'"%char)
              then last ← at_index possibleJSON (len possibleJSON - 1);
                   Some (bool_decide (last = "'"%char))
              else Some false);
    possibleJSON ← (if (quoted : bool)
                    then slice possibleJSON 1 (len possibleJSON - 1)
                    else Some possibleJSON);
    if bool_decide (2 <= len possibleJSON)
    then
      first ← at_index possibleJSON 0;
      if bool_decide (first = "{"%char)
      then last ← at_index possibleJSON (len possibleJSON - 1);
           Some (bool_decide (last = "}"%char))
      else Some false
    else Some false.

(** the last check of [isJSON]: an opening and a closing brace *)
Definition braces_check (s : string) : option bool :=
  if bool_decide (2 <= len s)
  then first ← at_index s 0;
       if bool_decide (first = "{"%char)
       then last ← at_index s (len s - 1); Some (bool_decide (last = "}"%char))
       else Some false
  else Some false.


(** *** Functions of Go's [strings] package used by the utilities

    The package is Go's standard library; the definitions follow its
    documented behaviour. *)

(** [strings.Index(s, substr)]: the position of the first occurrence of
    [substr] in [s], or -1 *)
Fixpoint strings_Index (s substr : string) : Z :=
  if String.prefix substr s then 0
  else match s with
       | EmptyString => -1
       | String _ s' =>
           let i := strings_Index s' substr in
           if (i <? 0)%Z then -1 else i + 1
       end.

(** [strings.Contains(s, substr)] *)
Definition strings_Contains (s substr : string) : bool :=
  bool_decide (0 <= strings_Index s substr).

(** the loop of [genSplit]: at most [cuts] cuts at the occurrences of [sep] *)
Fixpoint split_loop (cuts : nat) (s sep : string) : list string :=
  match cuts with
  | O => [s]
  | S cuts' =>
      let m := strings_Index s sep in
      if (m <? 0)%Z then [s]
      else String.string_of_list_ascii (take (Z.to_nat m) (bytes s))
           :: split_loop cuts'
                (String.string_of_list_ascii (drop (Z.to_nat (m + len sep)) (bytes s)))
                sep
  end.

(** [strings.SplitN(s, sep, n)] for a separator that is not empty, as at
    every call below. A negative [n] asks for all the pieces: as each cut
    consumes at least one byte, [len(s)] cuts are enough for that. (For the
    empty separator Go splits [s] into its UTF-8 sequences; that case is
    left at the unsplit string.) *)
Definition strings_SplitN (s sep : string) (n : Z) : list string :=
  if (n =? 0)%Z then []
  else if bool_decide (sep = "") then [s]
  else split_loop (if (n <? 0)%Z then String.length s else Z.to_nat (n - 1)) s sep.

(** [strings.Split(s, sep)] is [SplitN] with [n = -1] *)
Definition strings_Split (s sep : string) : list string :=
  strings_SplitN s sep (-1).

(** [strings.Join(elems, sep)] *)
Fixpoint strings_Join (elems : list string) (sep : string) : string :=
  match elems with
  | [] => ""
  | [x] => x
  | x :: rest => x +:+ sep +:+ strings_Join rest sep
  end.

(** a run of a function that may return an error, made by [fmt.Errorf]
    ([Err]) or handed on from a callee ([Failed]), or panic *)
Inductive go_result (A : Type) :=
  | Ok (a : A)
  | Err (format : string) (args : list string)
  | Failed (err : error)
  | Panic.
Arguments Ok {A} a.
Arguments Err {A} format args.
Arguments Failed {A} err.
Arguments Panic {A}.

(** *** Flags and lists *)

(** [cleanFlag]; [None] would be an index out of range *)
Definition cleanFlag (flag : string) : option string :=
  strings_Split flag "," !! 0%nat.

(** [makeList]; [strings.TrimSpace] is a parameter *)
Definition makeList (TrimSpace : string -> string) (list : string)
    : Datatypes.list string :=
  let cleanList := strings_Split list "," in
  TrimSpace <$> cleanList.

(** *** [makePairs] *)

Definition keyAndValueSeparator : string := "=".

(** The loop of [makePairs] on the arguments from index [i] on
    ([args[i:]]) and the map built so far: [i < ll-2] says that at least two
    arguments follow [args[i]], [i == ll-1] that none does. *)
Fixpoint makePairs_loop (args : list string) (nvs : gmap string string)
    : go_result (gmap string string) :=
  match args with
  | [] => Ok nvs
  | a :: rest =>
      if bool_decide (a ≠ keyAndValueSeparator) && strings_Contains a keyAndValueSeparator
      then
        match strings_SplitN a keyAndValueSeparator 2 with
        | k :: v :: _ => makePairs_loop rest (<[k := v]> nvs)
        | _ => Panic
        end
      else
        match rest with
        | [] => Err "invalid key-value pair %q" [a]
        | b :: rest1 =>
            match rest1 with
            | c :: rest2 =>
                if bool_decide (b = keyAndValueSeparator)
                then makePairs_loop rest2 (<[a := c]> nvs)
                else makePairs_loop rest1 (<[a := b]> nvs)
            | [] => makePairs_loop rest1 (<[a := b]> nvs)
            end
        end
  end.

Definition makePairs (args : list string) : go_result (gmap string string) :=
  makePairs_loop args ∅.

(** the number of occurrences of a byte in a string *)
Definition count_byte (c : ascii) (s : string) : nat :=
  length (filter (fun x => x = c) (bytes s)).

(** the ways of writing one key and its value on the command line:
    [key=value], [key = value] and [key value] *)
Inductive item :=
  | Joined (k v : string)
  | Spaced (k v : string)
  | Plain (k v : string).

Definition item_tokens (it : item) : list string :=
  match it with
  | Joined k v => [k +:+ "=" +:+ v]
  | Spaced k v => [k; "="; v]
  | Plain k v => [k; v]
  end.

Definition item_key (it : item) : string :=
  match it with Joined k _ | Spaced k _ | Plain k _ => k end.

Definition item_value (it : item) : string :=
  match it with Joined _ v | Spaced _ v | Plain _ v => v end.

(** the key holds no [=]; a joined item is not the bare separator, and the
    value of a plain item is not the separator *)
Definition item_ok (it : item) : Prop :=
  ("="%char ∉ bytes (item_key it)) /\
  match it with
  | Joined k v => k ≠ "" \/ v ≠ ""
  | Spaced _ _ => True
  | Plain _ v => v ≠ "="
  end.

Definition assign (nvs : gmap string string) (it : item) : gmap string string :=
  <[item_key it := item_value it]> nvs.

(** three items, one in each form *)
Definition three_items : list item :=
  [Joined "a" "b"; Spaced "c" "d"; Plain "e" "f"].

(** *** Command suggestions *)

(** Of [cli.Command] and [cli.Context] (package [github.com/urfave/cli])
    only what the functions below read is kept: the name of a command, and
    of a context the application's name and visible commands, the
    arguments and the flag names. *)
Record cli_Command := { Name : string }.

Record cli_Context := {
  App_Name : string;
  App_VisibleCommands : list cli_Command;
  Args : list string;
  FlagNames : list string
}.

Definition MaxInt64 : Z := 9223372036854775807.

Definition incorrectCmdDistance : Z := 3.

(** One turn of the loop of [findClosestCommand]; the loop state is
    [(closestName, minDist)]. The distance [cmn.DamerauLevenstheinDistance],
    which is not under src/, is the parameter [distance_of]. *)
Definition closest_step (distance_of : string -> string -> Z) (cmd : string)
    (st : string * Z) (candidate : cli_Command) : string * Z :=
  let '(closestName, minDist) := st in
  let dist := distance_of cmd (Name candidate) in
  if (dist <? minDist)%Z then (Name candidate, dist) else (closestName, minDist).

Definition findClosestCommand (distance_of : string -> string -> Z)
    (cmd : string) (candidates : list cli_Command) : string * Z :=
  foldl (closest_step distance_of cmd) ("", MaxInt64) candidates.

(** [didYouMeanMessage]; [quote] is the [%q] verb of [fmt.Sprintf],
    [cmn.Max] the greater of two ints, [len(cmd)/2] Go's integer division.
    [None] is the panic of [c.Args()[1:]] on an empty argument list. *)
Definition didYouMeanMessage (distance_of : string -> string -> Z)
    (quote : string -> string) (c : cli_Context) (cmd : string) : option string :=
  let '(closestCommand, distance) :=
    findClosestCommand distance_of cmd (App_VisibleCommands c) in
  if bool_decide (Z.max incorrectCmdDistance (Z.quot (len cmd) 2) <= distance)
  then Some ""
  else
    let sb := App_Name c in
    let sb := sb +:+ (" " +:+ closestCommand) in
    match Args c with
    | [] => None
    | _ :: tail =>
        let sb := foldl (fun sb a => sb +:+ (" " +:+ a)) sb tail in
        let sb := foldl (fun sb f => sb +:+ (" --" +:+ f)) sb (FlagNames c) in
        Some ("Did you mean: " +:+ quote sb +:+ "?")
    end.

(** a stand-in distance for the examples: the difference of the lengths *)
Definition length_distance (a b : string) : Z := Z.abs (len a - len b).

Definition some_commands : list cli_Command :=
  [{| Name := "show" |}; {| Name := "list" |}; {| Name := "rm" |}].

Definition some_context : cli_Context :=
  {| App_Name := "ais"; App_VisibleCommands := some_commands;
     Args := ["lst"; "bucket"]; FlagNames := ["all"] |}.

(** *** [limitedLineWriter] *)

(** the string ["\n"] *)
Definition newline : ascii := ascii_of_nat 10.
Definition nl : string := String newline "".

(** what is written to [w]: a line of [fmtStr] with its values, or the
    closing ["(and %d more)\n"] *)
Inductive written :=
  | Fprintf (format : string) (objs : list string)
  | FprintfMore (more : Z).

(** how the call ends *)
Inductive ending := Returned | Panicked.

(** [fmtStr] with a final newline *)
Definition with_newline (fmtStr : string) : option string :=
  if bool_decide (fmtStr = "") then Some (fmtStr +:+ nl)
  else
    last ← at_index fmtStr (len fmtStr - 1);
    if bool_decide (last ≠ newline) then Some (fmtStr +:+ nl) else Some fmtStr.

(** [minLen]: the least length of a column, starting from [math.MaxInt64]
    ([cmn.Min] is the lesser of two ints) *)
Definition min_len (args : list (list string)) : Z :=
  foldl (fun minLen a => Z.min minLen (Z.of_nat (length a))) MaxInt64 args.

(** the values of line [i]: [a[i]] of every column, [None] when an index is
    out of range *)
Definition line_objs (args : list (list string)) (i : nat) : option (list string) :=
  mapM (fun a : list string => a !! i) args.

(** The [for] loop, which has no condition in the source, from line [i] on
    with the lines [out] written so far. The loop is cut after [fuel] turns;
    [None] says that the turns were not enough. *)
Fixpoint line_loop (fuel : nat) (maxLines minLen : Z) (fmtStr : string)
    (args : list (list string)) (i : nat) (out : list written)
    : option (list written * ending) :=
  match fuel with
  | O => None
  | S fuel' =>
      match line_objs args i with
      | None => Some (out, Panicked)
      | Some objs =>
          let out := out ++ [Fprintf fmtStr objs] in
          let i := S i in
          if existsb (fun a : list string => (length a <=? i)%nat) args
          then Some (out, Returned)
          else if bool_decide (maxLines <= Z.of_nat i)
               then Some (out ++ [FprintfMore (minLen - Z.of_nat i)], Returned)
               else line_loop fuel' maxLines minLen fmtStr args i out
      end
  end.

(** [limitedLineWriter]; the loop gets one turn more than the lesser of
    [minLen] and [maxLines], which is enough for it to end *)
Definition limitedLineWriter (maxLines : Z) (fmtStr : string)
    (args : list (list string)) : option (list written * ending) :=
  fmtStr ← with_newline fmtStr;
  let maxLines := if (maxLines <? 0)%Z then MaxInt64 else maxLines in
  let minLen := min_len args in
  line_loop (S (Z.to_nat (Z.min minLen maxLines))) maxLines minLen fmtStr args 0 [].

(** the values of line [i] when every column has one *)
Definition row (args : list (list string)) (i : nat) : list string :=
  (fun a : list string => nth i a "") <$> args.

Definition two_columns : list (list string) := [["a"; "b"; "c"]; ["1"; "2"; "3"; "4"]].

(** *** Bucket properties from the command line *)

(** What [makeBckPropPairs] and [parseBucketAccessValues] take from
    packages that are not under src/: the tags of the fields of
    [cmn.BucketPropsToUpdate] listed by [cmn.IterFields] (taken not to
    fail), the name [cmn.HeaderBucketAccessAttrs], the parsers
    [cmn.StrToAccess] and [cmn.ParseHexOrUint], each returning a value and an
    error, and from Go's library [strings.TrimSpace] and
    [strconv.FormatUint(_, 10)]. *)
Record bck_props_env := {
  props : list string;
  HeaderBucketAccessAttrs : string;
  StrToAccess : string -> Z * option error;
  ParseHexOrUint : string -> Z * option error;
  TrimSpace : string -> string;
  FormatUint : Z -> string
}.

(** the [range] over the permissions of [access GET,PUT]; an error ends
    the function with the access collected so far *)
Fixpoint perms_loop (E : bck_props_env) (perms : list string) (access : Z)
    : Z * option error :=
  match perms with
  | [] => (access, None)
  | perm :: rest =>
      let perm := TrimSpace E perm in
      if bool_decide (perm = "") then perms_loop E rest access
      else match StrToAccess E perm with
           | (_, Some err) => (access, Some err)
           | (acc, None) => perms_loop E rest (Z.lor access acc)
           end
  end.

(** the second loop of [parseBucketAccessValues] over [values[newIdx:]];
    the result is [(access, newIdx, err)] at the end of the loop *)
Fixpoint access_loop (E : bck_props_env) (rest : list string) (access : Z)
    (newIdx : nat) : Z * nat * option error :=
  match rest with
  | [] => (access, newIdx, None)
  | value :: rest' =>
      match ParseHexOrUint E value with
      | (val, None) => access_loop E rest' (Z.lor access val) (S newIdx)
      | (_, Some _) =>
          match StrToAccess E value with
          | (_, Some err) => (access, newIdx, Some err)
          | (acc, None) => access_loop E rest' (Z.lor access acc) (S newIdx)
          end
      end
  end.

(** [parseBucketAccessValues]: [(access, newIdx, err)], or [None] for the
    panic of [values[idx]] out of range *)
Definition parseBucketAccessValues (E : bck_props_env) (values : list string)
    (idx : nat) : option (Z * nat * option error) :=
  if bool_decide (length values = 0%nat) then Some (0, idx, None)
  else
    value ← values !! idx;
    if bool_decide (0 < strings_Index value ",")
    then
      let '(access, err) := perms_loop E (strings_Split value ",") 0 in
      Some (access, S idx, err)
    else
      let '(access, newIdx, err) := access_loop E (drop idx values) 0 idx in
      if bool_decide (idx = newIdx) then Some (0, newIdx, err)
      else Some (access, newIdx, None).

(** The loop of [makeBckPropPairs] from index [idx], with the pending
    property name [cmd] and the map built so far. The loop is cut after
    [fuel] turns; [None] says that the turns were not enough. *)
Fixpoint bckProps_loop (E : bck_props_env) (fuel : nat) (values : list string)
    (idx : nat) (cmd : string) (nvs : gmap string string)
    : option (go_result (gmap string string)) :=
  match fuel with
  | O => None
  | S fuel' =>
      match values !! idx with
      | None =>
          (* idx < len(values) fails: the loop is over *)
          if bool_decide (cmd ≠ "")
          then Some (Err "missing property %q value" [cmd])
          else Some (Ok nvs)
      | Some value =>
          let pos := strings_Index value "=" in
          if bool_decide (0 < pos) then
            if bool_decide (cmd ≠ "")
            then Some (Err "missing property %q value" [cmd])
            else
              match slice value 0 pos, slice value (pos + 1) (len value) with
              | Some k, Some v =>
                  let key := TrimSpace E k in
                  let val := TrimSpace E v in
                  bckProps_loop E fuel' values (S idx) "" (<[key := val]> nvs)
              | _, _ => Some Panic
              end
          else
            let isCmd := bool_decide (value ∈ props E) in
            if bool_decide (cmd ≠ "") && isCmd
            then Some (Err "missing property %q value" [cmd])
            else if bool_decide (cmd = "") && negb isCmd
            then Some (Err "invalid property %q" [value])
            else if bool_decide (cmd ≠ "")
            then bckProps_loop E fuel' values (S idx) "" (<[cmd := value]> nvs)
            else
              let cmd := value in
              let idx := S idx in
              if bool_decide (cmd = HeaderBucketAccessAttrs E) then
                match parseBucketAccessValues E values idx with
                | None => Some Panic
                | Some (_, _, Some err) => Some (Failed err)
                | Some (access, idx, None) =>
                    bckProps_loop E fuel' values idx ""
                      (<[cmd := FormatUint E access]> nvs)
                end
              else bckProps_loop E fuel' values idx cmd nvs
      end
  end.

(** [makeBckPropPairs]; every turn of the loop moves [idx] forward, so one
    turn per value and one more are enough *)
Definition makeBckPropPairs (E : bck_props_env) (values : list string)
    : option (go_result (gmap string string)) :=
  bckProps_loop E (S (length values)) values 0 "" ∅.

(** an environment for the examples: two permissions, nothing trimmed *)
Definition env_props : bck_props_env :=
  {| props := ["access"; "mirror.enabled"; "ec.enabled"];
     HeaderBucketAccessAttrs := "access";
     StrToAccess := fun s =>
       if bool_decide (s = "GET") then (1, None)
       else if bool_decide (s = "PUT") then (2, None)
       else (0, Some "invalid access");
     ParseHexOrUint := fun s =>
       if bool_decide (s = "4") then (4, None) else (0, Some "invalid number");
     TrimSpace := fun s => s;
     FormatUint := fun z =>
       if bool_decide (z = 3) then "3" else if bool_decide (z = 4) then "4" else "?" |}.

(** the two ways of writing a property on the command line: [key=value]
    and [name value] *)
Inductive prop_item :=
  | Assigned (k v : string)
  | Named (p v : string).

Definition prop_tokens (it : prop_item) : list string :=
  match it with
  | Assigned k v => [k +:+ "=" +:+ v]
  | Named p v => [p; v]
  end.

(** an assignment has a key that is not empty and holds no [=]; a named
    property is a known property other than the access attributes, followed
    by a value that is not itself a property name; neither holds [=] *)
Definition prop_item_ok (E : bck_props_env) (it : prop_item) : Prop :=
  match it with
  | Assigned k v => k ≠ "" /\ "="%char ∉ bytes k
  | Named p v =>
      p ∈ props E /\ p ≠ "" /\ p ≠ HeaderBucketAccessAttrs E /\
      ("="%char ∉ bytes p) /\ ("="%char ∉ bytes v) /\ v ∉ props E
  end.

Definition prop_assign (E : bck_props_env) (nvs : gmap string string)
    (it : prop_item) : gmap string string :=
  match it with
  | Assigned k v => <[TrimSpace E k := TrimSpace E v]> nvs
  | Named p v => <[p := v]> nvs
  end.

Definition two_prop_items : list prop_item :=
  [Assigned "lru.enabled" "true"; Named "mirror.enabled" "false"].

(** what a value is worth as access: a number, else a permission, else
    the error of [cmn.StrToAccess] *)
Definition access_value (E : bck_props_env) (value : string) : Z + error :=
  match ParseHexOrUint E value with
  | (val, None) => inl val
  | (_, Some _) =>
      match StrToAccess E value with
      | (acc, None) => inl acc
      | (_, Some err) => inr err
      end
  end.

Definition or_access (E : bck_props_env) (access : Z) (value : string) : Z :=
  Z.lor access (match access_value E value with inl z => z | inr _ => 0 end).

(** * Properties *)

(** ** The digest agrees with published XXH32 values *)

Example xxh32_empty : XXHash32.ChecksumString32S "" 0 = 0x02cc5d05.
Proof. vm_compute. reflexivity. Qed.

Example xxh32_a : XXHash32.ChecksumString32S "a" 0 = 0x550d7456.
Proof. vm_compute. reflexivity. Qed.

Example xxh32_abc : XXHash32.ChecksumString32S "abc" 0 = 0x32d153ff.
Proof. vm_compute. reflexivity. Qed.

Example xxh32_two_stripes :
  XXHash32.ChecksumString32S "Nobody inspects the spammish repetition" 0
  = 0xe2293b2f.
Proof. vm_compute. reflexivity. Qed.

(** ** HRW placement *)

(** a digest is a [uint32] *)
Lemma u32_range (x : Z) : 0 <= XXHash32.u32 x < 2 ^ 32.
Proof. unfold XXHash32.u32. apply Z.mod_pos_bound. lia. Qed.

Lemma lxor_shiftr_u32 (h k : Z) :
  0 <= h < 2 ^ 32 -> 0 <= k -> 0 <= Z.lxor h (Z.shiftr h k) < 2 ^ 32.
Proof.
  intros Hh Hk.
  assert (Hs : 0 <= Z.shiftr h k <= h).
  { rewrite Z.shiftr_div_pow2 by lia. split.
    - apply Z.div_pos; lia.
    - apply Z.div_le_upper_bound; [lia|]. nia. }
  assert (Hnn : 0 <= Z.lxor h (Z.shiftr h k)) by (apply Z.lxor_nonneg; lia).
  split; [exact Hnn|].
  destruct (Z.eq_dec (Z.lxor h (Z.shiftr h k)) 0) as [->|Hnz]; [lia|].
  apply Z.log2_lt_pow2; [lia|].
  pose proof (Z.log2_lxor h (Z.shiftr h k) ltac:(lia) ltac:(lia)) as Hlog.
  assert (Z.log2 (Z.shiftr h k) <= Z.log2 h) by (apply Z.log2_le_mono; lia).
  assert (Z.log2 h < 32).
  { destruct (Z.eq_dec h 0) as [->|Hh0]; [cbn; lia|].
    apply Z.log2_lt_pow2; lia. }
  lia.
Qed.

Lemma weight_uint32 (name id : string) : 0 <= weight name id < 2 ^ 32.
Proof.
  unfold weight, XXHash32.ChecksumString32S, XXHash32.Checksum32S.
  repeat match goal with |- context [let '(_, _) := ?x in _] => destruct x end.
  unfold XXHash32.avalanche. cbv zeta.
  apply lxor_shiftr_u32; [apply u32_range | lia].
Qed.

Section HrwLoop.
Variable name : string.

Lemma hrw_step_weight mx cur id sinfo :
  hrw_step name (mx, cur) (id, sinfo) =
    if (weight name id >? mx)%Z then (weight name id, Some sinfo) else (mx, cur).
Proof. reflexivity. Qed.

(** The loop either keeps its initial state, when no weight exceeds the
    initial maximum, or ends on the first entry of greatest weight. *)
Lemma hrw_loop_inv (l : list (string * daemonInfo)) :
  forall mx cur,
    (foldl (hrw_step name) (mx, cur) l = (mx, cur) /\
     forall id s, (id, s) ∈ l -> weight name id <= mx)
    \/
    (exists l1 id s l2,
        l = l1 ++ (id, s) :: l2 /\
        foldl (hrw_step name) (mx, cur) l = (weight name id, Some s) /\
        mx < weight name id /\
        (forall id' s', (id', s') ∈ l1 -> weight name id' < weight name id) /\
        (forall id' s', (id', s') ∈ l2 -> weight name id' <= weight name id)).
Proof.
  induction l as [|[id0 s0] l IH]; intros mx cur.
  - left. split; [reflexivity|]. intros id s Hin. inversion Hin.
  - cbn [foldl]. rewrite hrw_step_weight.
    destruct (Z.gtb_spec (weight name id0) mx) as [Hgt|Hle].
    + destruct (IH (weight name id0) (Some s0))
        as [[Heq Hall]|(l1 & id & s & l2 & -> & Heq & Hlt & Hbefore & Hafter)].
      * right. exists [], id0, s0, l. repeat split; try assumption.
        -- intros id' s' Hin. inversion Hin.
      * right. exists ((id0, s0) :: l1), id, s, l2.
        repeat split; try assumption; try lia.
        intros id' s' Hin. apply elem_of_cons in Hin as [Hhd|Htl].
        -- injection Hhd as -> ->. exact Hlt.
        -- eauto.
    + destruct (IH mx cur)
        as [[Heq Hall]|(l1 & id & s & l2 & -> & Heq & Hlt & Hbefore & Hafter)].
      * left. split; [assumption|].
        intros id' s' Hin. apply elem_of_cons in Hin as [Hhd|Htl].
        -- injection Hhd as -> ->. exact Hle.
        -- eauto.
      * right. exists ((id0, s0) :: l1), id, s, l2.
        repeat split; try assumption.
        intros id' s' Hin. apply elem_of_cons in Hin as [Hhd|Htl].
        -- injection Hhd as -> ->. lia.
        -- eauto.
Qed.

(** the first entry of greatest weight is determined by the list *)
Lemma first_max_unique (l1 : list (string * daemonInfo)) :
  forall k1 l2 k2 id s id' s',
    l1 ++ (id, s) :: l2 = k1 ++ (id', s') :: k2 ->
    (forall i x, (i, x) ∈ l1 -> weight name i < weight name id) ->
    (forall i x, (i, x) ∈ l2 -> weight name i <= weight name id) ->
    (forall i x, (i, x) ∈ k1 -> weight name i < weight name id') ->
    (forall i x, (i, x) ∈ k2 -> weight name i <= weight name id') ->
    (id, s) = (id', s').
Proof.
  induction l1 as [|x l1 IH]; intros [|y k1] l2 k2 id s id' s' Heq Hb Ha Hb' Ha';
    cbn in Heq.
  - congruence.
  - injection Heq as <- ->.
    assert (weight name id < weight name id') by (apply (Hb' id s); set_solver).
    assert (weight name id' <= weight name id) by (apply (Ha id' s'); set_solver).
    lia.
  - injection Heq as -> <-.
    assert (weight name id' < weight name id) by (apply (Hb id' s'); set_solver).
    assert (weight name id <= weight name id') by (apply (Ha' id s); set_solver).
    lia.
  - injection Heq as <- Hrest.
    apply (IH k1 l2 k2 id s id' s' Hrest); try assumption.
    + intros i x0 Hin. apply (Hb i x0). set_solver.
    + intros i x0 Hin. apply (Hb' i x0). set_solver.
Qed.

(** a node is returned exactly when it is the first entry of greatest
    weight and that weight is positive *)
Lemma hrwTarget_first_max (order : list (string * daemonInfo)) (sinfo : daemonInfo) :
  hrwTarget name order = Some sinfo <->
  exists l1 id l2,
    order = l1 ++ (id, sinfo) :: l2 /\
    0 < weight name id /\
    (forall id' s', (id', s') ∈ l1 -> weight name id' < weight name id) /\
    (forall id' s', (id', s') ∈ l2 -> weight name id' <= weight name id).
Proof.
  unfold hrwTarget. split.
  - intros Hres.
    destruct (hrw_loop_inv order 0 None)
      as [[Heq _]|(l1 & id & s & l2 & Hsplit & Heq & Hlt & Hbefore & Hafter)];
      rewrite Heq in Hres; cbn in Hres; [discriminate|].
    injection Hres as ->. exists l1, id, l2. auto.
  - intros (l1 & id & l2 & Hsplit & Hpos & Hbefore & Hafter).
    destruct (hrw_loop_inv order 0 None)
      as [[Heq Hall]|(k1 & id' & s' & k2 & Hsplit' & Heq & Hlt & Hbefore' & Hafter')].
    + exfalso.
      assert (weight name id <= 0) by (apply (Hall id sinfo); subst order; set_solver).
      lia.
    + rewrite Heq. cbn. rewrite Hsplit in Hsplit'.
      pose proof (first_max_unique l1 k1 l2 k2 id sinfo id' s'
                    Hsplit' Hbefore Hafter Hbefore' Hafter') as Hsame.
      congruence.
Qed.

End HrwLoop.

Lemma range_order_two (i j : string) (x y : daemonInfo) :
  i ≠ j ->
  range_order (<[i := x]> {[j := y]}) [(i, x); (j, y)] /\
  range_order (<[i := x]> {[j := y]}) [(j, y); (i, x)].
Proof.
  intros Hne. unfold range_order.
  assert (map_to_list (<[i := x]> ({[j := y]} : gmap string daemonInfo))
          ≡ₚ [(i, x); (j, y)]) as ->.
  { rewrite map_to_list_insert by (by apply lookup_singleton_ne).
    by rewrite map_to_list_singleton. }
  split; [reflexivity | apply perm_swap].
Qed.

Lemma range_order_elem (m : gmap string daemonInfo) order id s :
  range_order m order -> (id, s) ∈ order <-> m !! id = Some s.
Proof.
  unfold range_order. intros ->. apply elem_of_map_to_list.
Qed.

Lemma hrw_loop_fmap name (f : daemonInfo -> daemonInfo) (l : list (string * daemonInfo)) :
  forall mx cur,
    foldl (hrw_step name) (mx, f <$> cur) (prod_map id f <$> l) =
    prod_map id (fmap f) (foldl (hrw_step name) (mx, cur) l).
Proof.
  induction l as [|[i s] l IH]; intros mx cur; [reflexivity|].
  rewrite fmap_cons. change (prod_map id f (i, s)) with (i, f s).
  cbn [foldl]. rewrite !hrw_step_weight.
  destruct (weight name i >? mx)%Z.
  - apply (IH (weight name i) (Some s)).
  - apply IH.
Qed.

(** C1 (as amended). Under every iteration order of the cluster map,
    [hrwTarget] returns the target whose weight
    [H(id + ":" + name, 1103515245)] is positive and strictly greater than
    that of every other target; in general the target returned is the first
    one of greatest weight in iteration order, not the one with the
    lexicographically least or greatest id. *)
Theorem hrwTarget_greatest_weight (name : string) (m : gmap string daemonInfo)
    (order : list (string * daemonInfo)) :
  range_order m order ->
  (forall id sinfo,
      m !! id = Some sinfo ->
      0 < weight name id ->
      (forall id' s', m !! id' = Some s' -> id' ≠ id ->
                      weight name id' < weight name id) ->
      hrwTarget name order = Some sinfo) /\
  (forall sinfo,
      hrwTarget name order = Some sinfo <->
      exists l1 id l2,
        order = l1 ++ (id, sinfo) :: l2 /\
        0 < XXHash32.ChecksumString32S (id +:+ ":" +:+ name) 1103515245 /\
        (forall id' s', (id', s') ∈ l1 -> weight name id' < weight name id) /\
        (forall id' s', (id', s') ∈ l2 -> weight name id' <= weight name id)).
Proof.
  intros Hord. split; [|intros sinfo; apply hrwTarget_first_max].
  intros id sinfo Hlook Hpos Huniq.
  apply (range_order_elem m order id sinfo Hord) in Hlook as Hin.
  unfold hrwTarget.
  destruct (hrw_loop_inv name order 0 None)
    as [[_ Hall]|(l1 & id' & s' & l2 & Hsplit & -> & _ & Hbefore & Hafter)].
  - specialize (Hall id sinfo Hin). lia.
  - cbn. f_equal.
    assert (Hwin : (id', s') ∈ order).
    { subst order. apply elem_of_app. right. apply elem_of_cons. by left. }
    apply (range_order_elem m order id' s' Hord) in Hwin.
    destruct (decide (id' = id)) as [->|Hne]; [congruence|].
    specialize (Huniq id' s' Hwin Hne).
    rewrite Hsplit in Hin.
    apply elem_of_app in Hin as [Hin|Hin].
    + specialize (Hbefore id sinfo Hin). lia.
    + apply elem_of_cons in Hin as [Hin|Hin]; [congruence|].
      specialize (Hafter id sinfo Hin). lia.
Qed.

Lemma hrwTarget_greatest_weight_witness :
  range_order ab_smap ab_order /\
  weight "obj" "b" < weight "obj" "a" /\
  hrwTarget "obj" ab_order = Some (mk_target "a").
Proof.
  assert (Hord : range_order ab_smap ab_order)
    by (apply (range_order_two "a" "b"); discriminate).
  split; [exact Hord|]. split; [vm_compute; reflexivity|].
  apply (proj1 (hrwTarget_greatest_weight "obj" ab_smap ab_order Hord) "a").
  - reflexivity.
  - vm_compute. reflexivity.
  - intros id' s' Hlook Hne. unfold ab_smap in Hlook.
    apply lookup_insert_Some in Hlook as [[<- _]|[_ Hlook]].
    + congruence.
    + apply lookup_singleton_Some in Hlook as [<- _]. vm_compute. reflexivity.
Defined.

(** C1 (as stated) fails: targets [t5974] and [t103507] have the same
    weight for object ["obj"], and the two iteration orders of the map that
    holds them yield different targets, so the result is neither fixed by
    the ids nor stable under permutation. *)
Lemma hrwTarget_tie_depends_on_order :
  range_order tie_smap tie_order1 /\
  range_order tie_smap tie_order2 /\
  weight "obj" "t5974" = weight "obj" "t103507" /\
  hrwTarget "obj" tie_order1 = Some (mk_target "t5974") /\
  hrwTarget "obj" tie_order2 = Some (mk_target "t103507") /\
  ~ (forall name m o1 o2,
        range_order m o1 -> range_order m o2 ->
        hrwTarget name o1 = hrwTarget name o2).
Proof.
  assert (Hord : range_order tie_smap tie_order1 /\ range_order tie_smap tie_order2)
    by (apply (range_order_two "t5974" "t103507"); discriminate).
  destruct Hord as [Hord1 Hord2].
  assert (H1 : hrwTarget "obj" tie_order1 = Some (mk_target "t5974"))
    by (vm_compute; reflexivity).
  assert (H2 : hrwTarget "obj" tie_order2 = Some (mk_target "t103507"))
    by (vm_compute; reflexivity).
  split; [exact Hord1|]. split; [exact Hord2|].
  split; [vm_compute; reflexivity|].
  split; [exact H1|]. split; [exact H2|].
  intros Hstable.
  specialize (Hstable "obj" tie_smap tie_order1 tie_order2 Hord1 Hord2).
  rewrite H1, H2 in Hstable. discriminate.
Qed.

(** C3 (as amended). A node returned by [hrwTarget] is always a node of
    the cluster map; a node is returned whenever some node of the map has a
    nonzero weight; for the empty map the result is nil. *)
Theorem hrwTarget_in_smap (name : string) (m : gmap string daemonInfo)
    (order : list (string * daemonInfo)) :
  range_order m order ->
  (forall sinfo, hrwTarget name order = Some sinfo ->
                 exists id, m !! id = Some sinfo) /\
  ((exists id sinfo, m !! id = Some sinfo /\ 0 < weight name id) ->
   is_Some (hrwTarget name order)) /\
  (m = ∅ -> hrwTarget name order = None).
Proof.
  intros Hord. repeat split.
  - intros sinfo Hres.
    apply hrwTarget_first_max in Hres as (l1 & id & l2 & Hsplit & _).
    exists id. apply (range_order_elem m order id sinfo Hord).
    subst order. apply elem_of_app. right. apply elem_of_cons. by left.
  - intros (id & sinfo & Hlook & Hpos).
    apply (range_order_elem m order id sinfo Hord) in Hlook.
    unfold hrwTarget.
    destruct (hrw_loop_inv name order 0 None)
      as [[_ Hall]|(l1 & id' & s' & l2 & _ & -> & _)].
    + specialize (Hall id sinfo Hlook). lia.
    + cbn. eauto.
  - intros ->. unfold range_order in Hord.
    rewrite map_to_list_empty in Hord.
    apply Permutation_nil_r in Hord as ->. reflexivity.
Qed.

Lemma hrwTarget_in_smap_witness :
  range_order ab_smap ab_order /\
  (forall sinfo, hrwTarget "obj" ab_order = Some sinfo ->
                 exists id, ab_smap !! id = Some sinfo) /\
  is_Some (hrwTarget "obj" ab_order).
Proof.
  assert (Hord : range_order ab_smap ab_order)
    by (apply (range_order_two "a" "b"); discriminate).
  destruct (hrwTarget_in_smap "obj" ab_smap ab_order Hord) as (Hin & Hsome & _).
  split; [exact Hord|]. split; [exact Hin|].
  apply Hsome. exists "a", (mk_target "a"). split; [reflexivity|].
  vm_compute. reflexivity.
Defined.

(** C3 (as stated) fails: for the empty cluster map the result is nil,
    which is not a node of the map. *)
Lemma hrwTarget_empty_smap_nil :
  range_order ∅ [] /\
  hrwTarget "obj" [] = None /\
  ~ (forall name m order,
        range_order m order ->
        exists id sinfo, hrwTarget name order = Some sinfo /\ m !! id = Some sinfo).
Proof.
  assert (Hord : range_order ∅ []).
  { unfold range_order. by rewrite map_to_list_empty. }
  split; [exact Hord|]. split; [reflexivity|].
  intros Hclaim. destruct (Hclaim "obj" ∅ [] Hord) as (id & sinfo & Hres & _).
  discriminate Hres.
Qed.

(** Beyond the empty map: the loop starts from [max = 0] and replaces it
    only by a strictly greater weight, so a node of weight 0 is never
    chosen. Target [t2396349751] has weight 0 for object ["obj"]. *)
Example hrwTarget_zero_weight_nil :
  weight "obj" "t2396349751" = 0 /\
  hrwTarget "obj" [("t2396349751", mk_target "t2396349751")] = None.
Proof. split; vm_compute; reflexivity. Qed.

(** C4 (as amended). [hrwTarget] does not look at what a node holds: the
    choice is made on the map keys alone, so changing the flags of the nodes
    (setting or clearing Decommission or Maintenance) changes the returned
    node only by those flags. Decommissioned nodes are candidates like any
    other. *)
Theorem hrwTarget_ignores_flags (name : string) (f : daemonInfo -> daemonInfo)
    (order : list (string * daemonInfo)) :
  hrwTarget name (prod_map id f <$> order) = f <$> hrwTarget name order.
Proof.
  unfold hrwTarget.
  change (0, None) with (0, f <$> (None : option daemonInfo)) at 1.
  rewrite hrw_loop_fmap. by destruct (foldl (hrw_step name) (0, None) order).
Qed.

(** C4 (as stated) fails: a map whose only node is decommissioned yields
    that node. *)
Lemma hrwTarget_returns_decommissioned :
  range_order {["t1" := decommissioned "t1"]} [("t1", decommissioned "t1")] /\
  Decommission (decommissioned "t1") = true /\
  hrwTarget "obj" [("t1", decommissioned "t1")] = Some (decommissioned "t1") /\
  ~ (forall name m order sinfo,
        range_order m order ->
        hrwTarget name order = Some sinfo -> Decommission sinfo = false).
Proof.
  assert (Hord : range_order {["t1" := decommissioned "t1"]}
                             [("t1", decommissioned "t1")]).
  { unfold range_order. by rewrite map_to_list_singleton. }
  assert (Hres : hrwTarget "obj" [("t1", decommissioned "t1")]
                 = Some (decommissioned "t1")) by (vm_compute; reflexivity).
  split; [exact Hord|]. split; [reflexivity|]. split; [exact Hres|].
  intros Hclaim. specialize (Hclaim _ _ _ _ Hord Hres). discriminate Hclaim.
Qed.

(** ** Mountpath lifecycle *)

(** unfolding of the monad of calls *)
Ltac step_M :=
  unfold mbind, mret, M_bind, M_ret, emit, add_events;
  cbn [gfn mfs trace negb fst snd].

Lemma redistributeMD_returns (e : env) (w : world) :
  hook_returns e = true ->
  redistributeMD e w = (Returns tt, add_events w (hook_events e)).
Proof.
  unfold hook_returns, hook_events, redistributeMD, bmd_persist, fs_CreateNewVMD,
    debug_AssertNoErr, cos_ExitLogf.
  intros Hok. apply andb_prop in Hok as [Hbmd Hvmd].
  apply bool_decide_eq_true in Hvmd.
  destruct (hasEnoughBMDCopies e); cbn [orb negb] in *.
  - step_M. rewrite Hvmd. reflexivity.
  - apply bool_decide_eq_true in Hbmd. step_M. rewrite Hbmd. cbn [gfn mfs trace].
    rewrite Hvmd. rewrite <- app_assoc. reflexivity.
Qed.

Ltac unfold_wrappers :=
  unfold run_op, addMountpath, removeMountpath, enableMountpath, disableMountpath,
    fs_Add, fs_Remove, fs_Enable, fs_Disable, gfn_Activate, gfn_Deactivate;
  step_M.

Lemma run_op_declined (e : env) (op : mpath_op) (mpath : string) (w : world) err :
  mutator_returns (verdict_of e op mpath (mfs w)) = (None, err) ->
  run_op e op mpath w =
    (Returns (match op with
              | OpEnable | OpDisable => ChangedErr false err
              | OpAdd | OpRemove => ErrOnly err
              end),
     add_events w (GfnActivate :: if gfn w then [] else [GfnDeactivate])).
Proof.
  intros Hret.
  destruct op; unfold_wrappers; cbn [verdict_of] in Hret;
    match type of Hret with mutator_returns ?v = _ =>
      destruct v as [mi next| |err']; cbn in Hret; try discriminate Hret
    end; injection Hret as <-; unfold commit; step_M;
    destruct (gfn w); cbn [negb gfn mfs trace]; rewrite <- ?app_assoc; reflexivity.
Qed.

Lemma commit_transition (e : env) (mi : MountpathInfo) (next : registry) (w : world) :
  hook_returns e = true ->
  commit (Transition mi next) (redistributeMD e) w =
    (Returns (Some mi, None),
     {| gfn := gfn w; mfs := next; trace := trace w ++ hook_events e |}).
Proof.
  intros Hok. unfold commit, publish. step_M.
  rewrite (redistributeMD_returns e w Hok). reflexivity.
Qed.

Lemma checkEnable_run (e : env) (action mpath : string) (w : world) :
  checkEnable e action mpath w =
    (Returns tt,
     add_events w
       (if (1 <? size (available (mfs w)))%nat
        then [Infof "%s mountpath %s" [action; mpath]]
        else Infof "%s the first mountpath %s" [action; mpath] :: SelfEnable ::
             match enable_result e with
             | Some err => [Errorf "Failed to re-register %s (self), err: %v" [si e; err]]
             | None => []
             end)).
Proof.
  unfold checkEnable, fs_Get, t_enable, glog_Infof, glog_Errorf. step_M.
  destruct (1 <? size (available (mfs w)))%nat; [reflexivity|].
  destruct (enable_result e); cbn [gfn mfs trace]; rewrite <- ?app_assoc; reflexivity.
Qed.

Lemma checkZeroMountpaths_run (e : env) (action : string) (w : world) :
  checkZeroMountpaths e action w =
    if (0 <? size (available (mfs w)))%nat then (Returns false, w)
    else (Returns true,
          add_events w
            [SelfDisable;
             match disable_result e with
             | Some err =>
                 Errorf
                   "%s the last available mountpath, failed to unregister target %s (self), err: %v"
                   [action; si e; err]
             | None =>
                 Errorf "%s the last available mountpath and unregistered target %s (self)"
                   [action; si e]
             end]).
Proof.
  unfold checkZeroMountpaths, fs_Get, t_disable, glog_Errorf. step_M.
  destruct (0 <? size (available (mfs w)))%nat; [reflexivity|].
  destruct (disable_result e); cbn [gfn mfs trace]; rewrite <- ?app_assoc; reflexivity.
Qed.

Lemma addMpathEvent_run (e : env) (action : string) (mi : MountpathInfo) (w : world) :
  addMpathEvent e action mi w =
    (Returns tt,
     add_events w
       (AbortAllMountpathsXactions :: Go (ResilverAndMakeNCopies "add-mp") ::
        if (1 <? size (available (mfs w)))%nat
        then [Infof "%s mountpath %s" [action; Path mi]]
        else Infof "%s the first mountpath %s" [action; Path mi] :: SelfEnable ::
             match enable_result e with
             | Some err => [Errorf "Failed to re-register %s (self), err: %v" [si e; err]]
             | None => []
             end)).
Proof.
  unfold addMpathEvent, xreg_AbortAllMountpathsXactions, go. step_M.
  rewrite checkEnable_run. unfold add_events. cbn [gfn mfs trace].
  rewrite <- !app_assoc. reflexivity.
Qed.

Lemma delMpathEvent_run (e : env) (action : string) (mi : MountpathInfo) (w : world) :
  delMpathEvent e action mi w =
    (Returns tt,
     add_events w
       (AbortAllMountpathsXactions :: Go (EvictLomCache mi) ::
        if (0 <? size (available (mfs w)))%nat
        then [Go (ResilverAndMakeNCopies "del-mp")]
        else [SelfDisable;
              match disable_result e with
              | Some err =>
                  Errorf
                    "%s the last available mountpath, failed to unregister target %s (self), err: %v"
                    [action; si e; err]
              | None =>
                  Errorf "%s the last available mountpath and unregistered target %s (self)"
                    [action; si e]
              end])).
Proof.
  unfold delMpathEvent, xreg_AbortAllMountpathsXactions, go. step_M.
  rewrite checkZeroMountpaths_run. cbn [gfn mfs trace].
  destruct (0 <? size (available (mfs w)))%nat; unfold add_events; cbn [gfn mfs trace];
    rewrite <- !app_assoc; reflexivity.
Qed.

Lemma run_add_like (e : env) (op : mpath_op) (mpath : string) (w : world)
    (mi : MountpathInfo) (next : registry) :
  op = OpAdd \/ op = OpEnable ->
  verdict_of e op mpath (mfs w) = Transition mi next ->
  hook_returns e = true ->
  run_op e op mpath w =
    (Returns (match op with OpAdd => ErrOnly None | _ => ChangedErr true None end),
     {| gfn := true; mfs := next;
        trace := trace w ++ GfnActivate :: hook_events e ++
                 AbortAllMountpathsXactions :: Go (ResilverAndMakeNCopies "add-mp") ::
                 if (1 <? size (available next))%nat
                 then [Infof "%s mountpath %s" [action_of op; Path mi]]
                 else Infof "%s the first mountpath %s" [action_of op; Path mi] ::
                      SelfEnable ::
                      match enable_result e with
                      | Some err =>
                          [Errorf "Failed to re-register %s (self), err: %v" [si e; err]]
                      | None => []
                      end |}).
Proof.
  intros [-> | ->] Hv Hok; cbn [verdict_of] in Hv; unfold_wrappers;
    rewrite Hv, (commit_transition e mi next _ Hok), addMpathEvent_run;
    unfold add_events; cbn [gfn mfs trace action_of];
    rewrite <- !app_assoc; reflexivity.
Qed.

Lemma run_del_like (e : env) (op : mpath_op) (mpath : string) (w : world)
    (mi : MountpathInfo) (next : registry) :
  op = OpRemove \/ op = OpDisable ->
  verdict_of e op mpath (mfs w) = Transition mi next ->
  hook_returns e = true ->
  run_op e op mpath w =
    (Returns (match op with OpRemove => ErrOnly None | _ => ChangedErr true None end),
     {| gfn := true; mfs := next;
        trace := trace w ++ GfnActivate :: hook_events e ++
                 AbortAllMountpathsXactions :: Go (EvictLomCache mi) ::
                 if (0 <? size (available next))%nat
                 then [Go (ResilverAndMakeNCopies "del-mp")]
                 else [SelfDisable;
                       match disable_result e with
                       | Some err =>
                           Errorf
                             "%s the last available mountpath, failed to unregister target %s (self), err: %v"
                             [action_of op; si e; err]
                       | None =>
                           Errorf
                             "%s the last available mountpath and unregistered target %s (self)"
                             [action_of op; si e]
                       end] |}).
Proof.
  intros [-> | ->] Hv Hok; cbn [verdict_of] in Hv; unfold_wrappers;
    rewrite Hv, (commit_transition e mi next _ Hok), delMpathEvent_run;
    unfold add_events; cbn [gfn mfs trace action_of];
    rewrite <- !app_assoc; reflexivity.
Qed.

Lemma add_like_available (e : env) (op : mpath_op) (mpath : string) (r : registry)
    (mi : MountpathInfo) (next : registry) :
  op = OpAdd \/ op = OpEnable ->
  verdict_of e op mpath r = Transition mi next ->
  available next !! mpath = Some mi.
Proof.
  intros [-> | ->]; cbn [verdict_of].
  - unfold Add_verdict.
    destruct (available r !! mpath), (disabled r !! mpath); try discriminate.
    case_bool_decide; [discriminate|]. intros [= <- <-]. cbn. apply lookup_insert_eq.
  - unfold Enable_verdict.
    destruct (disabled r !! mpath), (available r !! mpath); try discriminate;
      intros [= <- <-]; cbn; apply lookup_insert_eq.
Qed.

Lemma size_pos_lookup (m : gmap string MountpathInfo) (k : string) (x : MountpathInfo) :
  m !! k = Some x -> (0 < size m)%nat.
Proof.
  intros Hlook. destruct (decide (size m = 0%nat)) as [Hz|Hnz]; [|lia].
  apply map_size_empty_iff in Hz. subst m. by rewrite lookup_empty in Hlook.
Qed.

Lemma redistributeMD_exits (e : env) (w : world) :
  hook_returns e = false ->
  exists evs, redistributeMD e w = (Exits, add_events w evs).
Proof.
  unfold hook_returns, redistributeMD, bmd_persist, fs_CreateNewVMD,
    debug_AssertNoErr, cos_ExitLogf.
  intros Hko. step_M.
  destruct (hasEnoughBMDCopies e), (bmd_persist_result e) as [err1|],
    (CreateNewVMD_result e) as [err2|];
    try discriminate Hko; cbn [negb gfn mfs trace]; rewrite <- ?app_assoc;
    eexists; reflexivity.
Qed.

Lemma run_op_hook_exits (e : env) (op : mpath_op) (mpath : string) (w : world)
    (mi : MountpathInfo) (next : registry) :
  verdict_of e op mpath (mfs w) = Transition mi next ->
  hook_returns e = false ->
  exists evs,
    run_op e op mpath w =
      (Exits, {| gfn := true; mfs := mfs w; trace := trace w ++ GfnActivate :: evs |}).
Proof.
  intros Hv Hko.
  destruct op; cbn [verdict_of] in Hv; unfold_wrappers; rewrite Hv;
    unfold commit; step_M;
    match goal with |- context [redistributeMD e ?w0] =>
      destruct (redistributeMD_exits e w0 Hko) as [evs ->]
    end; exists evs; unfold add_events; cbn [gfn mfs trace];
    rewrite <- app_assoc; reflexivity.
Qed.

(** an action of another kind is not in an explicit list of actions *)
Ltac flatten_events :=
  unfold hook_events;
  repeat match goal with
         | |- context [if ?b then _ else _] => destruct b
         | |- context [match ?o with Some _ => _ | None => _ end] => destruct o
         end;
  cbn [app].

Ltac not_in_events :=
  flatten_events;
  let H := fresh "Hin" in
  intros H;
  repeat (apply elem_of_cons in H as [H|H]; [discriminate H|]);
  apply elem_of_nil in H; exact H.

(** C8. [redistributeMD] persists the BMD first, exactly when
    [hasEnoughBMDCopies()] is false, then creates the VMD stamped with the
    target's id; a failure of either write ends the process at that step
    ([cos.ExitLogf]), and the hook has no error to return. *)
Theorem redistributeMD_steps (e : env) (w : world) :
  redistributeMD e w =
    let bmd := if hasEnoughBMDCopies e then [] else [BmdPersist] in
    match (if hasEnoughBMDCopies e then None else bmd_persist_result e) with
    | Some err => (Exits, add_events w (bmd ++ [ExitLogf "%v" [err]]))
    | None =>
        match CreateNewVMD_result e with
        | Some err =>
            (Exits, add_events w (bmd ++ [CreateNewVMD (tid e); ExitLogf "%v" [err]]))
        | None => (Returns tt, add_events w (bmd ++ [CreateNewVMD (tid e)]))
        end
    end.
Proof.
  unfold redistributeMD, bmd_persist, fs_CreateNewVMD, debug_AssertNoErr, cos_ExitLogf.
  step_M.
  destruct (hasEnoughBMDCopies e); cbn [negb app].
  - destruct (CreateNewVMD_result e); cbn [gfn mfs trace];
      rewrite <- ?app_assoc; reflexivity.
  - destruct (bmd_persist_result e); cbn [gfn mfs trace].
    + rewrite <- app_assoc. reflexivity.
    + destruct (CreateNewVMD_result e); cbn [gfn mfs trace];
        rewrite <- ?app_assoc; reflexivity.
Qed.

(** case analysis on the operation of a real transition whose hook returns *)
Ltac by_transition Hv Hok :=
  match type of Hv with
  | verdict_of ?e ?op ?mpath (mfs ?w) = Transition ?mi ?next =>
      destruct op;
      [ rewrite (run_add_like e OpAdd mpath w mi next (or_introl eq_refl) Hv Hok)
      | rewrite (run_del_like e OpRemove mpath w mi next (or_introl eq_refl) Hv Hok)
      | rewrite (run_add_like e OpEnable mpath w mi next (or_intror eq_refl) Hv Hok)
      | rewrite (run_del_like e OpDisable mpath w mi next (or_intror eq_refl) Hv Hok) ]
  end.

(** C10. When the registry performs a real transition and the hook
    returns, the wrapper returns with the GFN flag set, whatever the flag
    was at entry, and [Deactivate] is not among its actions. *)
Theorem gfn_active_after_transition (e : env) (op : mpath_op) (mpath : string)
    (w : world) (mi : MountpathInfo) (next : registry) :
  verdict_of e op mpath (mfs w) = Transition mi next ->
  hook_returns e = true ->
  exists r w' evs,
    run_op e op mpath w = (Returns r, w') /\
    trace w' = trace w ++ evs /\
    gfn w' = true /\
    GfnDeactivate ∉ evs.
Proof.
  intros Hv Hok.
  by_transition Hv Hok.
  all: do 3 eexists; split; [reflexivity|]; cbn [gfn trace];
    split; [reflexivity|]; split; [reflexivity|]; not_in_events.
Qed.

Lemma gfn_active_after_transition_witness :
  verdict_of env0 OpDisable "/m1" (mfs w1)
  = Transition m1 {| available := ∅; disabled := {["/m1" := m1]} |} /\
  hook_returns env0 = true /\
  exists r w' evs,
    run_op env0 OpDisable "/m1" w1 = (Returns r, w') /\
    trace w' = trace w1 ++ evs /\
    gfn w' = true /\
    GfnDeactivate ∉ evs.
Proof.
  assert (Hv : verdict_of env0 OpDisable "/m1" (mfs w1)
               = Transition m1 {| available := ∅; disabled := {["/m1" := m1]} |})
    by (vm_compute; reflexivity).
  assert (Hok : hook_returns env0 = true) by reflexivity.
  split; [exact Hv|]. split; [exact Hok|].
  exact (gfn_active_after_transition env0 OpDisable "/m1" w1 _ _ Hv Hok).
Defined.

(** C2 (as amended). After a wrapper has run, the GFN flag equals its
    value before the call on every path where the registry made no
    transition (no-op or refusal); when the registry performs a real
    transition the flag is left set, whatever it was before. *)
Theorem gfn_after_operation (e : env) (op : mpath_op) (mpath : string) (w : world) :
  exists out w',
    run_op e op mpath w = (out, w') /\
    gfn w' = match verdict_of e op mpath (mfs w) with
             | Transition _ _ => true
             | Noop | Refused _ => gfn w
             end.
Proof.
  destruct (verdict_of e op mpath (mfs w)) as [mi next| |err] eqn:Hv.
  - destruct (hook_returns e) eqn:Hok.
    + by_transition Hv Hok; do 2 eexists; split; reflexivity.
    + destruct (run_op_hook_exits e op mpath w mi next Hv Hok) as [evs ->].
      do 2 eexists; split; reflexivity.
  - rewrite (run_op_declined e op mpath w None) by (rewrite Hv; reflexivity).
    do 2 eexists; split; reflexivity.
  - rewrite (run_op_declined e op mpath w (Some err)) by (rewrite Hv; reflexivity).
    do 2 eexists; split; reflexivity.
Qed.

(** C2 (as stated) fails: adding the first mountpath to a target whose GFN
    flag is clear returns with the flag set. *)
Lemma addMountpath_leaves_gfn_active :
  gfn w0 = false /\
  (run_op env0 OpAdd "/m1" w0).1 = Returns (ErrOnly None) /\
  gfn (run_op env0 OpAdd "/m1" w0).2 = true /\
  ~ (forall e op mpath w r w',
        run_op e op mpath w = (Returns r, w') -> gfn w' = gfn w).
Proof.
  assert (Hret : (run_op env0 OpAdd "/m1" w0).1 = Returns (ErrOnly None))
    by (vm_compute; reflexivity).
  assert (Hgfn : gfn (run_op env0 OpAdd "/m1" w0).2 = true)
    by (vm_compute; reflexivity).
  split; [reflexivity|]. split; [exact Hret|]. split; [exact Hgfn|].
  intros Hclaim.
  destruct (run_op env0 OpAdd "/m1" w0) as [out w'] eqn:Hrun.
  cbn [fst snd] in Hret, Hgfn. subst out.
  specialize (Hclaim env0 OpAdd "/m1" w0 _ _ Hrun).
  rewrite Hgfn in Hclaim. discriminate Hclaim.
Qed.

(** C5 (as amended). When the mutator hands back a nil descriptor (a
    no-op or an error), the wrapper performs no action besides those on the
    GFN: it activates it, deactivates it exactly when the flag was clear at
    entry, so that the flag and the registry are as before, and returns the
    mutator's error: as [(false, err)] from enable and disable, as [err]
    alone from add and remove. *)
Theorem wrapper_without_transition (e : env) (op : mpath_op) (mpath : string)
    (w : world) (err : option error) :
  mutator_returns (verdict_of e op mpath (mfs w)) = (None, err) ->
  run_op e op mpath w =
    (Returns (match op with
              | OpEnable | OpDisable => ChangedErr false err
              | OpAdd | OpRemove => ErrOnly err
              end),
     {| gfn := gfn w; mfs := mfs w;
        trace := trace w ++ GfnActivate :: if gfn w then [] else [GfnDeactivate] |}).
Proof. exact (run_op_declined e op mpath w err). Qed.

Lemma wrapper_without_transition_witness :
  mutator_returns (verdict_of env0 OpEnable "/m1" (mfs w1)) = (None, None) /\
  run_op env0 OpEnable "/m1" w1 =
    (Returns (ChangedErr false None),
     {| gfn := false; mfs := only_m1; trace := [GfnActivate; GfnDeactivate] |}).
Proof.
  assert (Hret : mutator_returns (verdict_of env0 OpEnable "/m1" (mfs w1)) = (None, None))
    by (vm_compute; reflexivity).
  split; [exact Hret|].
  exact (wrapper_without_transition env0 OpEnable "/m1" w1 None Hret).
Defined.

(** C5 (as stated) fails: [addMountpath] of a path the registry already
    knows returns the error alone; there is no [changed] result. *)
Lemma addMountpath_known_path_returns_error_alone :
  mutator_returns (verdict_of env0 OpAdd "/m1" (mfs w1)) = (None, Some EEXIST) /\
  (run_op env0 OpAdd "/m1" w1).1 = Returns (ErrOnly (Some EEXIST)) /\
  ~ (forall e op mpath w err,
        mutator_returns (verdict_of e op mpath (mfs w)) = (None, err) ->
        exists w', run_op e op mpath w = (Returns (ChangedErr false err), w')).
Proof.
  assert (Hret : mutator_returns (verdict_of env0 OpAdd "/m1" (mfs w1))
                 = (None, Some EEXIST)) by (vm_compute; reflexivity).
  assert (Hrun : (run_op env0 OpAdd "/m1" w1).1 = Returns (ErrOnly (Some EEXIST)))
    by (vm_compute; reflexivity).
  split; [exact Hret|]. split; [exact Hrun|].
  intros Hclaim. destruct (Hclaim env0 OpAdd "/m1" w1 _ Hret) as [w' Hrun'].
  rewrite Hrun' in Hrun. discriminate Hrun.
Qed.

(** C6. A remove or disable that performs a real transition aborts the
    mountpath xactions and schedules the eviction of the mountpath's LOM
    cache; when no mountpath is left available it then calls [t.disable()],
    logs one of two different lines according to the outcome of that call,
    and schedules no resilver and MakeNCopies, which it schedules when a
    mountpath is left. The caller gets no error either way. *)
Theorem last_mountpath_unregisters (e : env) (op : mpath_op) (mpath : string)
    (w : world) (mi : MountpathInfo) (next : registry) :
  op = OpRemove \/ op = OpDisable ->
  verdict_of e op mpath (mfs w) = Transition mi next ->
  hook_returns e = true ->
  run_op e op mpath w =
    (Returns (match op with OpRemove => ErrOnly None | _ => ChangedErr true None end),
     {| gfn := true; mfs := next;
        trace := trace w ++ GfnActivate :: hook_events e ++
                 AbortAllMountpathsXactions :: Go (EvictLomCache mi) ::
                 if bool_decide (size (available next) = 0%nat)
                 then [SelfDisable;
                       match disable_result e with
                       | Some err =>
                           Errorf
                             "%s the last available mountpath, failed to unregister target %s (self), err: %v"
                             [action_of op; si e; err]
                       | None =>
                           Errorf
                             "%s the last available mountpath and unregistered target %s (self)"
                             [action_of op; si e]
                       end]
                 else [Go (ResilverAndMakeNCopies "del-mp")] |}) /\
  "%s the last available mountpath, failed to unregister target %s (self), err: %v"
  ≠ "%s the last available mountpath and unregistered target %s (self)".
Proof.
  intros Hop Hv Hok. split; [|discriminate].
  rewrite (run_del_like e op mpath w mi next Hop Hv Hok).
  case_bool_decide as Hsize.
  - rewrite Hsize. reflexivity.
  - destruct (size (available next)); [congruence|reflexivity].
Qed.

Lemma last_mountpath_unregisters_witness :
  verdict_of env0 OpRemove "/m1" (mfs w1) = Transition m1 no_mountpaths /\
  hook_returns env0 = true /\
  size (available no_mountpaths) = 0%nat /\
  run_op env0 OpRemove "/m1" w1 =
    (Returns (ErrOnly None),
     {| gfn := true; mfs := no_mountpaths;
        trace := [GfnActivate; BmdPersist; CreateNewVMD "t1";
                  AbortAllMountpathsXactions; Go (EvictLomCache m1); SelfDisable;
                  Errorf
                    "%s the last available mountpath, failed to unregister target %s (self), err: %v"
                    ["Removed"; "t[t1]"; "connection refused"]] |}).
Proof.
  assert (Hv : verdict_of env0 OpRemove "/m1" (mfs w1) = Transition m1 no_mountpaths)
    by (vm_compute; reflexivity).
  assert (Hok : hook_returns env0 = true) by reflexivity.
  split; [exact Hv|]. split; [exact Hok|]. split; [reflexivity|].
  exact (proj1 (last_mountpath_unregisters env0 OpRemove "/m1" w1 m1 no_mountpaths
                  (or_introl eq_refl) Hv Hok)).
Defined.

(** C7. An add or enable that performs a real transition aborts the
    mountpath xactions, schedules resilver and MakeNCopies, and calls
    [t.enable()] exactly when one mountpath is available afterwards; it then
    logs the "first mountpath" line instead of the plain one, and a failure
    of [t.enable()] is logged and not returned. *)
Theorem first_mountpath_registers (e : env) (op : mpath_op) (mpath : string)
    (w : world) (mi : MountpathInfo) (next : registry) :
  op = OpAdd \/ op = OpEnable ->
  verdict_of e op mpath (mfs w) = Transition mi next ->
  hook_returns e = true ->
  run_op e op mpath w =
    (Returns (match op with OpAdd => ErrOnly None | _ => ChangedErr true None end),
     {| gfn := true; mfs := next;
        trace := trace w ++ GfnActivate :: hook_events e ++
                 AbortAllMountpathsXactions :: Go (ResilverAndMakeNCopies "add-mp") ::
                 if bool_decide (size (available next) = 1%nat)
                 then Infof "%s the first mountpath %s" [action_of op; Path mi] ::
                      SelfEnable ::
                      match enable_result e with
                      | Some err =>
                          [Errorf "Failed to re-register %s (self), err: %v" [si e; err]]
                      | None => []
                      end
                 else [Infof "%s mountpath %s" [action_of op; Path mi]] |}) /\
  "%s the first mountpath %s" ≠ "%s mountpath %s".
Proof.
  intros Hop Hv Hok. split; [|discriminate].
  rewrite (run_add_like e op mpath w mi next Hop Hv Hok).
  pose proof (size_pos_lookup _ _ _
                (add_like_available e op mpath (mfs w) mi next Hop Hv)) as Hpos.
  case_bool_decide as Hsize.
  - rewrite Hsize. reflexivity.
  - destruct (size (available next)) as [|[|n]]; [lia|congruence|reflexivity].
Qed.

Lemma first_mountpath_registers_witness :
  verdict_of env0 OpAdd "/m1" (mfs w0) = Transition m1 only_m1 /\
  hook_returns env0 = true /\
  size (available only_m1) = 1%nat /\
  run_op env0 OpAdd "/m1" w0 =
    (Returns (ErrOnly None),
     {| gfn := true; mfs := only_m1;
        trace := [GfnActivate; BmdPersist; CreateNewVMD "t1";
                  AbortAllMountpathsXactions; Go (ResilverAndMakeNCopies "add-mp");
                  Infof "%s the first mountpath %s" ["Added"; "/m1"]; SelfEnable;
                  Errorf "Failed to re-register %s (self), err: %v"
                    ["t[t1]"; "connection refused"]] |}).
Proof.
  assert (Hv : verdict_of env0 OpAdd "/m1" (mfs w0) = Transition m1 only_m1)
    by (vm_compute; reflexivity).
  assert (Hok : hook_returns env0 = true) by reflexivity.
  split; [exact Hv|]. split; [exact Hok|]. split; [vm_compute; reflexivity|].
  exact (proj1 (first_mountpath_registers env0 OpAdd "/m1" w0 m1 only_m1
                  (or_introl eq_refl) Hv Hok)).
Defined.

(** C9 (as amended). [enableMountpath] and [disableMountpath] return
    [(changed, error)]: [(false, nil)] on a no-op, [(false, err)] on a
    refusal and [(true, nil)] on a real transition, whatever the outcome of
    the self-registration call. [addMountpath] and [removeMountpath] return
    the error alone: [nil] on a real transition, the registry's error on a
    refusal. *)
Theorem wrapper_results (e : env) (op : mpath_op) (mpath : string) (w : world) :
  hook_returns e = true ->
  exists w',
    run_op e op mpath w =
      (Returns
         match op, verdict_of e op mpath (mfs w) with
         | (OpEnable | OpDisable), Transition _ _ => ChangedErr true None
         | (OpEnable | OpDisable), Noop => ChangedErr false None
         | (OpEnable | OpDisable), Refused err => ChangedErr false (Some err)
         | (OpAdd | OpRemove), (Transition _ _ | Noop) => ErrOnly None
         | (OpAdd | OpRemove), Refused err => ErrOnly (Some err)
         end, w').
Proof.
  intros Hok.
  destruct (verdict_of e op mpath (mfs w)) as [mi next| |err] eqn:Hv.
  - by_transition Hv Hok; rewrite ?Hv; eexists; reflexivity.
  - rewrite (run_op_declined e op mpath w None) by (rewrite Hv; reflexivity).
    destruct op; rewrite ?Hv; eexists; reflexivity.
  - rewrite (run_op_declined e op mpath w (Some err)) by (rewrite Hv; reflexivity).
    destruct op; rewrite ?Hv; eexists; reflexivity.
Qed.

Lemma wrapper_results_witness :
  hook_returns env0 = true /\
  exists w', run_op env0 OpDisable "/m1" w1 = (Returns (ChangedErr true None), w').
Proof.
  assert (Hok : hook_returns env0 = true) by reflexivity.
  split; [exact Hok|].
  destruct (wrapper_results env0 OpDisable "/m1" w1 Hok) as [w' Hrun].
  exists w'. rewrite Hrun. vm_compute. reflexivity.
Defined.

(** C9 (as stated) fails: [addMountpath] of a first mountpath performs a
    real transition and returns [nil], not a pair [(true, nil)]. *)
Lemma addMountpath_returns_no_changed_flag :
  verdict_of env0 OpAdd "/m1" (mfs w0) = Transition m1 only_m1 /\
  hook_returns env0 = true /\
  (run_op env0 OpAdd "/m1" w0).1 = Returns (ErrOnly None) /\
  ~ (forall e op mpath w mi next,
        verdict_of e op mpath (mfs w) = Transition mi next ->
        hook_returns e = true ->
        exists w', run_op e op mpath w = (Returns (ChangedErr true None), w')).
Proof.
  assert (Hv : verdict_of env0 OpAdd "/m1" (mfs w0) = Transition m1 only_m1)
    by (vm_compute; reflexivity).
  assert (Hok : hook_returns env0 = true) by reflexivity.
  assert (Hrun : (run_op env0 OpAdd "/m1" w0).1 = Returns (ErrOnly None))
    by (vm_compute; reflexivity).
  split; [exact Hv|]. split; [exact Hok|]. split; [exact Hrun|].
  intros Hclaim. destruct (Hclaim env0 OpAdd "/m1" w0 _ _ Hv Hok) as [w' Hrun'].
  rewrite Hrun' in Hrun. discriminate Hrun.
Qed.

(** * Further properties of the code *)

(** ** HRW placement: [hrwMpath] and the effect of map changes *)

Lemma hrw_mpath_step_weight name mx cur path :
  hrw_mpath_step name (mx, cur) path =
    if (weight name path >? mx)%Z then (weight name path, path) else (mx, cur).
Proof. reflexivity. Qed.

(** the loop of [hrwMpath] keeps its initial state or ends on the first
    key of greatest weight *)
Lemma hrw_mpath_loop_inv name (l : list string) :
  forall mx cur,
    (foldl (hrw_mpath_step name) (mx, cur) l = (mx, cur) /\
     forall p, p ∈ l -> weight name p <= mx)
    \/
    (exists l1 p l2,
        l = l1 ++ p :: l2 /\
        foldl (hrw_mpath_step name) (mx, cur) l = (weight name p, p) /\
        mx < weight name p /\
        (forall q, q ∈ l1 -> weight name q < weight name p) /\
        (forall q, q ∈ l2 -> weight name q <= weight name p)).
Proof.
  induction l as [|p0 l IH]; intros mx cur.
  - left. split; [reflexivity|]. intros p Hin. inversion Hin.
  - cbn [foldl]. rewrite hrw_mpath_step_weight.
    destruct (Z.gtb_spec (weight name p0) mx) as [Hgt|Hle].
    + destruct (IH (weight name p0) p0)
        as [[Heq Hall]|(l1 & p & l2 & -> & Heq & Hlt & Hbefore & Hafter)].
      * right. exists [], p0, l. repeat split; try assumption.
        intros q Hin. inversion Hin.
      * right. exists (p0 :: l1), p, l2.
        repeat split; try assumption; try lia.
        intros q Hin. apply elem_of_cons in Hin as [->|Htl]; eauto.
    + destruct (IH mx cur)
        as [[Heq Hall]|(l1 & p & l2 & -> & Heq & Hlt & Hbefore & Hafter)].
      * left. split; [assumption|].
        intros q Hin. apply elem_of_cons in Hin as [->|Htl]; eauto.
      * right. exists (p0 :: l1), p, l2.
        repeat split; try assumption.
        intros q Hin. apply elem_of_cons in Hin as [->|Htl]; [lia|eauto].
Qed.

Lemma mpath_order_elem {V : Type} (m : gmap string V) (order : list string) (p : string) :
  mpath_order m order -> p ∈ order <-> is_Some (m !! p).
Proof.
  unfold mpath_order. intros ->. rewrite list_elem_of_fmap. split.
  - intros [[k v] [-> Hin]]. apply elem_of_map_to_list in Hin. eauto.
  - intros [v Hv]. exists (p, v). split; [reflexivity|].
    by apply elem_of_map_to_list.
Qed.

Lemma elem_of_middle {A : Type} (x : A) (l1 l2 : list A) : x ∈ l1 ++ x :: l2.
Proof. apply elem_of_app. right. apply elem_of_cons. by left. Qed.

(** X1. [hrwMpath] returns a key of the mountpath map, of greatest weight,
    whenever some key has a positive weight; a result other than the empty
    string is always a key of the map; and the result is the empty string
    when no key has a positive weight, in particular for the empty map. *)
Theorem hrwMpath_in_mountpaths {V : Type} (name : string) (m : gmap string V)
    (order : list string) :
  mpath_order m order ->
  (hrwMpath name order ≠ "" -> is_Some (m !! hrwMpath name order)) /\
  ((exists p, is_Some (m !! p) /\ 0 < weight name p) ->
   is_Some (m !! hrwMpath name order) /\
   0 < weight name (hrwMpath name order) /\
   forall q, is_Some (m !! q) -> weight name q <= weight name (hrwMpath name order)) /\
  ((forall p, is_Some (m !! p) -> weight name p <= 0) -> hrwMpath name order = "").
Proof.
  intros Hord. unfold hrwMpath.
  destruct (hrw_mpath_loop_inv name order 0 "")
    as [[-> Hall]|(l1 & p & l2 & Hsplit & -> & Hpos & Hbefore & Hafter)]; cbn [snd].
  - split; [congruence|]. split; [|reflexivity].
    intros (p & Hp & Hw). apply (mpath_order_elem m order p Hord) in Hp.
    specialize (Hall p Hp). lia.
  - assert (Hin : p ∈ order) by (subst order; apply elem_of_middle).
    pose proof (proj1 (mpath_order_elem m order p Hord) Hin) as Hkey.
    split; [auto|]. split.
    + intros _. split; [exact Hkey|]. split; [exact Hpos|].
      intros q Hq. apply (mpath_order_elem m order q Hord) in Hq.
      rewrite Hsplit in Hq. apply elem_of_app in Hq as [Hq|Hq].
      * specialize (Hbefore q Hq). lia.
      * apply elem_of_cons in Hq as [->|Hq]; [lia|auto].
    + intros Hzero. specialize (Hzero p Hkey). lia.
Qed.

Lemma mpath_order_two (i j : string) :
  i ≠ j ->
  mpath_order (<[i := tt]> ({[j := tt]} : gmap string unit)) (j :: i :: nil).
Proof.
  intros Hne. unfold mpath_order.
  rewrite map_to_list_insert by (by apply lookup_singleton_ne).
  rewrite map_to_list_singleton. cbn. apply perm_swap.
Qed.

Lemma hrwMpath_in_mountpaths_witness :
  mpath_order two_mountpaths two_mountpaths_order /\
  is_Some (two_mountpaths !! hrwMpath "obj" two_mountpaths_order).
Proof.
  assert (Hord : mpath_order two_mountpaths two_mountpaths_order)
    by (apply mpath_order_two; discriminate).
  split; [exact Hord|].
  apply (proj1 (proj2 (hrwMpath_in_mountpaths "obj" two_mountpaths _ Hord))).
  exists "/m1". split; [by exists tt|]. vm_compute. reflexivity.
Defined.

(** X2. When one key of the mountpath map has a positive weight strictly
    greater than that of every other key, [hrwMpath] returns it under every
    iteration order of the map. *)
Theorem hrwMpath_greatest_weight {V : Type} (name : string) (m : gmap string V)
    (order : list string) (p : string) :
  mpath_order m order ->
  is_Some (m !! p) ->
  0 < weight name p ->
  (forall q, is_Some (m !! q) -> q ≠ p -> weight name q < weight name p) ->
  hrwMpath name order = p.
Proof.
  intros Hord Hp Hpos Huniq.
  apply (mpath_order_elem m order p Hord) in Hp as Hin.
  unfold hrwMpath.
  destruct (hrw_mpath_loop_inv name order 0 "")
    as [[_ Hall]|(l1 & p' & l2 & Hsplit & -> & _ & Hbefore & Hafter)]; cbn [snd].
  - specialize (Hall p Hin). lia.
  - destruct (decide (p' = p)) as [->|Hne]; [reflexivity|].
    assert (Hkey : is_Some (m !! p')).
    { apply (mpath_order_elem m order p' Hord). subst order. apply elem_of_middle. }
    specialize (Huniq p' Hkey Hne).
    rewrite Hsplit in Hin. apply elem_of_app in Hin as [Hin|Hin].
    + specialize (Hbefore p Hin). lia.
    + apply elem_of_cons in Hin as [->|Hin]; [congruence|].
      specialize (Hafter p Hin). lia.
Qed.

Lemma hrwMpath_greatest_weight_witness :
  mpath_order two_mountpaths two_mountpaths_order /\
  weight "obj" "/m1" < weight "obj" "/m2" /\
  hrwMpath "obj" two_mountpaths_order = "/m2".
Proof.
  assert (Hord : mpath_order two_mountpaths two_mountpaths_order)
    by (apply mpath_order_two; discriminate).
  split; [exact Hord|]. split; [vm_compute; reflexivity|].
  apply (hrwMpath_greatest_weight "obj" two_mountpaths _ "/m2" Hord).
  - by exists tt.
  - vm_compute. reflexivity.
  - intros q [v Hq] Hne. unfold two_mountpaths in Hq.
    apply lookup_insert_Some in Hq as [[<- _]|[_ Hq]].
    + vm_compute. reflexivity.
    + apply lookup_singleton_Some in Hq as [<- _]. congruence.
Defined.

(** the target of strictly greatest positive weight wins under every
    iteration order *)
Lemma hrw_strict_max (name : string) (m : gmap string daemonInfo)
    (order : list (string * daemonInfo)) (id : string) (sinfo : daemonInfo) :
  range_order m order ->
  m !! id = Some sinfo ->
  0 < weight name id ->
  (forall id' s', m !! id' = Some s' -> id' ≠ id -> weight name id' < weight name id) ->
  hrwTarget name order = Some sinfo.
Proof.
  intros Hord Hlook Hpos Huniq.
  apply (range_order_elem m order id sinfo Hord) in Hlook as Hin.
  unfold hrwTarget.
  destruct (hrw_loop_inv name order 0 None)
    as [[_ Hall]|(l1 & id' & s' & l2 & Hsplit & -> & _ & Hbefore & Hafter)].
  - specialize (Hall id sinfo Hin). lia.
  - cbn. f_equal.
    assert (Hwin : (id', s') ∈ order) by (subst order; apply elem_of_middle).
    apply (range_order_elem m order id' s' Hord) in Hwin.
    destruct (decide (id' = id)) as [->|Hne]; [congruence|].
    specialize (Huniq id' s' Hwin Hne).
    rewrite Hsplit in Hin. apply elem_of_app in Hin as [Hin|Hin].
    + specialize (Hbefore id sinfo Hin). lia.
    + apply elem_of_cons in Hin as [Hin|Hin]; [congruence|].
      specialize (Hafter id sinfo Hin). lia.
Qed.

(** X3. A node returned by [hrwTarget] has a positive weight, the greatest
    of the map; when every node of the map has weight 0 the result is nil,
    also for a map that is not empty. *)
Theorem hrwTarget_positive_weight (name : string) (m : gmap string daemonInfo)
    (order : list (string * daemonInfo)) :
  range_order m order ->
  (forall sinfo,
      hrwTarget name order = Some sinfo ->
      exists id, m !! id = Some sinfo /\ 0 < weight name id /\
                 forall id' s', m !! id' = Some s' -> weight name id' <= weight name id) /\
  ((forall id s, m !! id = Some s -> weight name id = 0) ->
   hrwTarget name order = None).
Proof.
  intros Hord. split.
  - intros sinfo Hres.
    apply hrwTarget_first_max in Hres as (l1 & id & l2 & Hsplit & Hpos & Hbefore & Hafter).
    exists id. split; [|split; [exact Hpos|]].
    + apply (range_order_elem m order id sinfo Hord). subst order. apply elem_of_middle.
    + intros id' s' Hlook. apply (range_order_elem m order id' s' Hord) in Hlook.
      rewrite Hsplit in Hlook. apply elem_of_app in Hlook as [Hin|Hin].
      * specialize (Hbefore id' s' Hin). lia.
      * apply elem_of_cons in Hin as [Hin|Hin]; [injection Hin as -> _; lia|eauto].
  - intros Hzero. unfold hrwTarget.
    destruct (hrw_loop_inv name order 0 None)
      as [[-> _]|(l1 & id & s & l2 & Hsplit & _ & Hpos & _)]; [reflexivity|].
    assert (Hin : (id, s) ∈ order) by (subst order; apply elem_of_middle).
    apply (range_order_elem m order id s Hord) in Hin.
    specialize (Hzero id s Hin). lia.
Qed.

Lemma hrwTarget_positive_weight_witness :
  range_order zero_smap zero_order /\
  zero_smap ≠ ∅ /\
  hrwTarget "obj" zero_order = None.
Proof.
  assert (Hord : range_order zero_smap zero_order).
  { unfold range_order, zero_smap, zero_order. by rewrite map_to_list_singleton. }
  split; [exact Hord|]. split.
  - unfold zero_smap. apply insert_non_empty.
  - apply (proj2 (hrwTarget_positive_weight "obj" zero_smap zero_order Hord)).
    intros id s Hlook. unfold zero_smap in Hlook.
    apply lookup_singleton_Some in Hlook as [<- _]. vm_compute. reflexivity.
Defined.

(** X4. Adding a target to a cluster map with a single target of greatest
    positive weight reassigns the object exactly when the new target's weight
    is greater: the object moves to the new target then, and stays where it
    was when the new target's weight is smaller. *)
Theorem hrwTarget_add_target (name : string) (m : gmap string daemonInfo)
    (order order' : list (string * daemonInfo)) (id : string) (sinfo : daemonInfo)
    (X : string) (x : daemonInfo) :
  range_order m order ->
  m !! id = Some sinfo ->
  0 < weight name id ->
  (forall id' s', m !! id' = Some s' -> id' ≠ id -> weight name id' < weight name id) ->
  m !! X = None ->
  range_order (<[X := x]> m) order' ->
  weight name X ≠ weight name id ->
  hrwTarget name order = Some sinfo /\
  hrwTarget name order' =
    if (weight name id <? weight name X)%Z then Some x else Some sinfo.
Proof.
  intros Hord Hlook Hpos Huniq Hfresh Hord' Hne.
  split; [exact (hrw_strict_max name m order id sinfo Hord Hlook Hpos Huniq)|].
  assert (HidX : id ≠ X) by congruence.
  destruct (Z.ltb_spec (weight name id) (weight name X)) as [Hlt|Hge].
  - apply (hrw_strict_max name (<[X := x]> m) order' X x Hord').
    + apply lookup_insert_eq.
    + lia.
    + intros id' s' Hl Hn. rewrite lookup_insert_ne in Hl by congruence.
      destruct (decide (id' = id)) as [->|Hn']; [lia|].
      specialize (Huniq id' s' Hl Hn'). lia.
  - apply (hrw_strict_max name (<[X := x]> m) order' id sinfo Hord').
    + rewrite lookup_insert_ne by congruence. exact Hlook.
    + exact Hpos.
    + intros id' s' Hl Hn.
      destruct (decide (id' = X)) as [->|Hn']; [lia|].
      rewrite lookup_insert_ne in Hl by congruence. eauto.
Qed.

Lemma hrwTarget_add_target_witness :
  range_order b_smap b_order /\
  range_order (<["a" := mk_target "a"]> b_smap) ab_order /\
  hrwTarget "obj" b_order = Some (mk_target "b") /\
  hrwTarget "obj" ab_order = Some (mk_target "a").
Proof.
  assert (Hord : range_order b_smap b_order).
  { unfold range_order, b_smap, b_order. by rewrite map_to_list_singleton. }
  assert (Hord' : range_order (<["a" := mk_target "a"]> b_smap) ab_order)
    by (apply (range_order_two "a" "b"); discriminate).
  split; [exact Hord|]. split; [exact Hord'|].
  refine (hrwTarget_add_target "obj" b_smap b_order ab_order "b" (mk_target "b")
            "a" (mk_target "a") Hord _ _ _ _ Hord' _).
  - reflexivity.
  - vm_compute. reflexivity.
  - intros id' s' Hl Hn. unfold b_smap in Hl.
    apply lookup_singleton_Some in Hl as [<- _]. congruence.
  - reflexivity.
  - vm_compute. discriminate.
Defined.

(** X5. Removing a target other than the one of strictly greatest positive
    weight leaves the choice unchanged. *)
Theorem hrwTarget_remove_other (name : string) (m : gmap string daemonInfo)
    (order' : list (string * daemonInfo)) (id : string) (sinfo : daemonInfo)
    (Y : string) :
  m !! id = Some sinfo ->
  0 < weight name id ->
  (forall id' s', m !! id' = Some s' -> id' ≠ id -> weight name id' < weight name id) ->
  Y ≠ id ->
  range_order (delete Y m) order' ->
  hrwTarget name order' = Some sinfo.
Proof.
  intros Hlook Hpos Huniq Hne Hord'.
  apply (hrw_strict_max name (delete Y m) order' id sinfo Hord').
  - rewrite lookup_delete_ne by congruence. exact Hlook.
  - exact Hpos.
  - intros id' s' Hl Hn. apply lookup_delete_Some in Hl as [_ Hl]. eauto.
Qed.

Lemma hrwTarget_remove_other_witness :
  range_order (delete "b" ab_smap) a_order /\
  hrwTarget "obj" a_order = Some (mk_target "a").
Proof.
  assert (Hord : range_order (delete "b" ab_smap) a_order).
  { unfold range_order, ab_smap, a_order.
    rewrite delete_insert_ne by discriminate.
    rewrite delete_singleton_eq, insert_empty. by rewrite map_to_list_singleton. }
  split; [exact Hord|].
  apply (hrwTarget_remove_other "obj" ab_smap a_order "a" (mk_target "a") "b").
  - reflexivity.
  - vm_compute. reflexivity.
  - intros id' s' Hl Hn. unfold ab_smap in Hl.
    apply lookup_insert_Some in Hl as [[<- _]|[_ Hl]]; [congruence|].
    apply lookup_singleton_Some in Hl as [<- _]. vm_compute. reflexivity.
  - discriminate.
  - exact Hord.
Defined.

(** the two loops move in step: same maximum, and the path chosen by the
    mountpath loop is the key under which the target loop found its node *)
Lemma hrw_loops_agree (name : string) (l : list (string * daemonInfo)) :
  forall mx cur p,
    (foldl (hrw_step name) (mx, cur) l).1
    = (foldl (hrw_mpath_step name) (mx, p) l.*1).1 /\
    (((foldl (hrw_step name) (mx, cur) l).2 = cur /\
      (foldl (hrw_mpath_step name) (mx, p) l.*1).2 = p) \/
     exists s, (foldl (hrw_step name) (mx, cur) l).2 = Some s /\
               ((foldl (hrw_mpath_step name) (mx, p) l.*1).2, s) ∈ l).
Proof.
  induction l as [|[id0 s0] l IH]; intros mx cur p.
  - cbn. auto.
  - rewrite fmap_cons. cbn [foldl fst].
    rewrite hrw_step_weight, hrw_mpath_step_weight.
    destruct (weight name id0 >? mx)%Z.
    + destruct (IH (weight name id0) (Some s0) id0) as [Hmax [[Hs Hp]|(s & Hs & Hin)]].
      * split; [exact Hmax|]. right. exists s0. rewrite Hs, Hp.
        split; [reflexivity|]. apply elem_of_cons. by left.
      * split; [exact Hmax|]. right. exists s. split; [exact Hs|].
        apply elem_of_cons. by right.
    + destruct (IH mx cur p) as [Hmax [[Hs Hp]|(s & Hs & Hin)]].
      * split; [exact Hmax|]. left. auto.
      * split; [exact Hmax|]. right. exists s. split; [exact Hs|].
        apply elem_of_cons. by right.
Qed.

(** X6. The two pickers agree: run over the same keys in the same order,
    [hrwMpath] returns the key under which [hrwTarget] found the node it
    returns, and the empty string when [hrwTarget] returns nil. *)
Theorem hrwTarget_hrwMpath_agree (name : string) (order : list (string * daemonInfo)) :
  match hrwTarget name order with
  | Some sinfo => (hrwMpath name order.*1, sinfo) ∈ order
  | None => hrwMpath name order.*1 = ""
  end.
Proof.
  unfold hrwTarget, hrwMpath.
  destruct (hrw_loops_agree name order 0 None "") as [_ [[-> ->]|(s & -> & Hin)]];
    [reflexivity | exact Hin].
Qed.

(** ** Mountpath lifecycle: what the wrappers never do *)

Lemma redistributeMD_run (e : env) (w : world) :
  redistributeMD e w =
    (if hook_returns e then Returns tt else Exits, add_events w (hook_trace e)).
Proof.
  unfold hook_returns, hook_trace, redistributeMD, bmd_persist, fs_CreateNewVMD,
    debug_AssertNoErr, cos_ExitLogf.
  step_M.
  destruct (hasEnoughBMDCopies e), (bmd_persist_result e) as [err1|],
    (CreateNewVMD_result e) as [err2|];
    cbn [negb orb andb app gfn mfs trace]; rewrite <- ?app_assoc; reflexivity.
Qed.

Lemma run_op_hook_exits_trace (e : env) (op : mpath_op) (mpath : string) (w : world)
    (mi : MountpathInfo) (next : registry) :
  verdict_of e op mpath (mfs w) = Transition mi next ->
  hook_returns e = false ->
  run_op e op mpath w =
    (Exits, {| gfn := true; mfs := mfs w;
               trace := trace w ++ GfnActivate :: hook_trace e |}).
Proof.
  intros Hv Hko.
  destruct op; cbn [verdict_of] in Hv; unfold_wrappers; rewrite Hv;
    unfold commit; step_M; rewrite redistributeMD_run, Hko;
    unfold add_events; cbn [gfn mfs trace];
    rewrite <- app_assoc; reflexivity.
Qed.

(** every run of a wrapper, by cases *)
Ltac by_run e op mpath w :=
  let mi := fresh "mi" in
  let next := fresh "next" in
  let err := fresh "err" in
  let Hv := fresh "Hv" in
  let Hok := fresh "Hok" in
  destruct (verdict_of e op mpath (mfs w)) as [mi next| |err] eqn:Hv;
  [ destruct (hook_returns e) eqn:Hok;
    [ by_transition Hv Hok
    | rewrite (run_op_hook_exits_trace e op mpath w mi next Hv Hok) ]
  | rewrite (run_op_declined e op mpath w None) by (rewrite Hv; reflexivity)
  | rewrite (run_op_declined e op mpath w (Some err)) by (rewrite Hv; reflexivity) ].

Ltac flatten_all_events :=
  unfold add_events, hook_events, hook_trace; cbn [gfn mfs trace];
  repeat match goal with
         | |- context [if ?b then _ else _] => destruct b
         | |- context [match ?o with Some _ => _ | None => _ end] => destruct o
         end;
  cbn [app].

Ltac absent_from_events :=
  flatten_all_events;
  let H := fresh "Hin" in
  intros H;
  repeat (apply elem_of_cons in H as [H|H]; [discriminate H|]);
  apply elem_of_nil in H; exact H.

(** X7. A wrapper never deactivates a GFN that was already active when it
    was called: on every path, also when the process ends in the hook, its
    actions do not include [Deactivate] and the flag is still set. *)
Theorem foreign_gfn_never_deactivated (e : env) (op : mpath_op) (mpath : string)
    (w : world) :
  gfn w = true ->
  exists out w' evs,
    run_op e op mpath w = (out, w') /\
    trace w' = trace w ++ evs /\
    (GfnDeactivate ∉ evs) /\
    gfn w' = true.
Proof.
  intros Hgfn.
  by_run e op mpath w;
    do 3 eexists; (split; [reflexivity|]); cbn [gfn trace add_events];
    (split; [reflexivity|]); rewrite ?Hgfn; (split; [absent_from_events|reflexivity]).
Qed.

Lemma foreign_gfn_never_deactivated_witness :
  gfn w1_gfn = true /\
  exists out w' evs,
    run_op env0 OpEnable "/m1" w1_gfn = (out, w') /\
    trace w' = trace w1_gfn ++ evs /\
    (GfnDeactivate ∉ evs) /\
    gfn w' = true.
Proof.
  split; [reflexivity|].
  exact (foreign_gfn_never_deactivated env0 OpEnable "/m1" w1_gfn eq_refl).
Defined.

(** in a list of actions that aborts the xactions before its first
    dispatch, every dispatch comes after the abort *)
Lemma abort_before_go (l0 l1 : list event) :
  (forall t, Go t ∉ l0) ->
  forall pre t post,
    l0 ++ AbortAllMountpathsXactions :: l1 = pre ++ Go t :: post ->
    AbortAllMountpathsXactions ∈ pre.
Proof.
  induction l0 as [|a l0 IH]; intros Hno [|b pre] t post Heq; cbn in Heq.
  - discriminate Heq.
  - injection Heq as <- _. apply elem_of_cons. by left.
  - injection Heq as -> _. exfalso. apply (Hno t). apply elem_of_cons. by left.
  - injection Heq as <- Heq. apply elem_of_cons. right.
    apply (IH ltac:(intros t' Hin; apply (Hno t'); apply elem_of_cons; by right)
             pre t post Heq).
Qed.

Lemma no_go_no_split (evs : list event) :
  (forall t, Go t ∉ evs) ->
  forall pre t post, evs = pre ++ Go t :: post -> AbortAllMountpathsXactions ∈ pre.
Proof.
  intros Hno pre t post ->. exfalso. apply (Hno t). apply elem_of_middle.
Qed.

(** X8. In every run of a wrapper the mountpath xactions are aborted before
    anything is handed to the scheduler: each [go] of the wrapper (cache
    eviction, resilver and MakeNCopies) comes after
    [AbortAllMountpathsXactions]. *)
Theorem abort_precedes_every_dispatch (e : env) (op : mpath_op) (mpath : string)
    (w : world) :
  exists out w' evs,
    run_op e op mpath w = (out, w') /\
    trace w' = trace w ++ evs /\
    forall pre t post,
      evs = pre ++ Go t :: post -> AbortAllMountpathsXactions ∈ pre.
Proof.
  by_run e op mpath w;
    do 3 eexists; (split; [reflexivity|]); cbn [gfn trace add_events];
    (split; [reflexivity|]).
  1-4: change (GfnActivate :: hook_events e ++ ?rest)
         with ((GfnActivate :: hook_events e) ++ rest);
       apply abort_before_go; intros t; absent_from_events.
  all: apply no_go_no_split; intros t; absent_from_events.
Qed.

Ltac keep_to_events next :=
  lazymatch goal with
  | |- (_ ∉ _) /\ (forall mi, _) =>
      split; [absent_from_events | intros ?; absent_from_events]
  | |- (_ ∉ _) /\ _ /\ _ =>
      split; [absent_from_events|];
      split; [intros ? ?; absent_from_events|];
      let Hleft := fresh "Hleft" in
      intros Hleft ? ?; cbn [mfs] in Hleft;
      try (destruct (size (available next));
           [vm_compute in Hleft; discriminate Hleft|]; cbn [Nat.ltb Nat.leb]);
      absent_from_events
  end.

(** X9. The two families of wrappers keep to their own follow-up work, on
    every path: an add or enable never unregisters the target and never
    schedules a cache eviction; a remove or disable never re-registers the
    target and never writes an Info line, and writes an Error line only when
    it leaves no mountpath available, so that a remove or disable that
    leaves a mountpath available logs nothing. *)
Theorem wrappers_keep_to_their_events (e : env) (op : mpath_op) (mpath : string)
    (w : world) :
  exists out w' evs,
    run_op e op mpath w = (out, w') /\
    trace w' = trace w ++ evs /\
    match op with
    | OpAdd | OpEnable =>
        (SelfDisable ∉ evs) /\ forall mi, Go (EvictLomCache mi) ∉ evs
    | OpRemove | OpDisable =>
        (SelfEnable ∉ evs) /\
        (forall format args, Infof format args ∉ evs) /\
        (bool_decide (size (available (mfs w')) = 0%nat) = false ->
         forall format args, Errorf format args ∉ evs)
    end.
Proof.
  by_run e op mpath w;
    do 3 eexists; (split; [reflexivity|]); cbn [gfn mfs trace add_events];
    (split; [reflexivity|]); try destruct op.
  all: match goal with
       | next : registry |- _ => keep_to_events next
       | _ => keep_to_events no_mountpaths
       end.
Qed.

(** X10. When a persistence step of the hook fails during a real
    transition, the process ends there: the wrapper has activated the GFN
    and does not release it, and besides the persistence steps and the final
    [ExitLogf] nothing happens: no abort of xactions, no dispatch, no
    log line of the wrapper, no self-(de)registration; the registry is still
    the one before the call. *)
Theorem persistence_failure_ends_the_wrapper (e : env) (op : mpath_op)
    (mpath : string) (w : world) (mi : MountpathInfo) (next : registry) :
  verdict_of e op mpath (mfs w) = Transition mi next ->
  hook_returns e = false ->
  exists evs err,
    run_op e op mpath w =
      (Exits, {| gfn := true; mfs := mfs w;
                 trace := trace w ++ GfnActivate :: evs ++ [ExitLogf "%v" [err]] |}) /\
    forall ev, ev ∈ evs -> ev = BmdPersist \/ ev = CreateNewVMD (tid e).
Proof.
  intros Hv Hko. rewrite (run_op_hook_exits_trace e op mpath w mi next Hv Hko).
  unfold hook_returns in Hko. unfold hook_trace.
  destruct (hasEnoughBMDCopies e), (bmd_persist_result e) as [err1|],
    (CreateNewVMD_result e) as [err2|]; try discriminate Hko; cbn [app].
  - exists [CreateNewVMD (tid e)], err2. split; [reflexivity|].
    intros ev Hin. apply list_elem_of_singleton in Hin. auto.
  - exists [CreateNewVMD (tid e)], err2. split; [reflexivity|].
    intros ev Hin. apply list_elem_of_singleton in Hin. auto.
  - exists [BmdPersist], err1. split; [reflexivity|].
    intros ev Hin. apply list_elem_of_singleton in Hin. auto.
  - exists [BmdPersist], err1. split; [reflexivity|].
    intros ev Hin. apply list_elem_of_singleton in Hin. auto.
  - exists [BmdPersist; CreateNewVMD (tid e)], err2. split; [reflexivity|].
    intros ev Hin. apply elem_of_cons in Hin as [->|Hin]; [auto|].
    apply list_elem_of_singleton in Hin. auto.
Qed.

Lemma persistence_failure_ends_the_wrapper_witness :
  verdict_of env_vmd_fails OpAdd "/m1" (mfs w0) = Transition m1 only_m1 /\
  hook_returns env_vmd_fails = false /\
  exists evs err,
    run_op env_vmd_fails OpAdd "/m1" w0 =
      (Exits, {| gfn := true; mfs := mfs w0;
                 trace := trace w0 ++ GfnActivate :: evs ++ [ExitLogf "%v" [err]] |}) /\
    forall ev, ev ∈ evs -> ev = BmdPersist \/ ev = CreateNewVMD (tid env_vmd_fails).
Proof.
  assert (Hv : verdict_of env_vmd_fails OpAdd "/m1" (mfs w0) = Transition m1 only_m1)
    by (vm_compute; reflexivity).
  assert (Hko : hook_returns env_vmd_fails = false) by reflexivity.
  split; [exact Hv|]. split; [exact Hko|].
  exact (persistence_failure_ends_the_wrapper env_vmd_fails OpAdd "/m1" w0
           m1 only_m1 Hv Hko).
Defined.

(** ** CLI utilities *)

Example isJSON_examples :
  isJSON "" = Some false /\ isJSON "{}" = Some true /\ isJSON "'{a}'" = Some true /\
  isJSON "'" = None /\ isJSON "''" = Some false /\ isJSON "{" = Some false /\
  isJSON "'{}" = Some false.
Proof. vm_compute. repeat split. Qed.

(** *** Go strings as byte lists *)

Lemma bytes_app (a b : string) : bytes (a +:+ b) = bytes a ++ bytes b.
Proof.
  unfold bytes. induction a as [|c a IH]; [reflexivity|].
  change (c :: String.list_ascii_of_string (a +:+ b)
          = c :: (String.list_ascii_of_string a ++ String.list_ascii_of_string b)).
  f_equal. exact IH.
Qed.

Lemma bytes_inj (a b : string) : bytes a = bytes b -> a = b.
Proof.
  unfold bytes. intros H.
  rewrite <- (String.string_of_list_ascii_of_string a),
          <- (String.string_of_list_ascii_of_string b).
  by rewrite H.
Qed.

Lemma bytes_of_list (l : list ascii) : bytes (String.string_of_list_ascii l) = l.
Proof. apply String.list_ascii_of_string_of_list_ascii. Qed.

Lemma len_bytes (s : string) : len s = Z.of_nat (length (bytes s)).
Proof.
  unfold len, bytes. f_equal. induction s as [|c s IH]; cbn; [reflexivity|].
  f_equal. exact IH.
Qed.

Lemma bytes_nil (s : string) : bytes s = [] <-> s = "".
Proof. destruct s; cbn; split; intros H; congruence. Qed.

Lemma at_index_head (s : string) : at_index s 0 = head (bytes s).
Proof.
  unfold at_index. rewrite len_bytes. case_bool_decide as H.
  - by destruct (bytes s).
  - destruct (bytes s); [reflexivity|]. cbn [length] in H. lia.
Qed.

Lemma at_index_last (s : string) : s ≠ "" -> at_index s (len s - 1) = last (bytes s).
Proof.
  intros Hne. unfold at_index. rewrite len_bytes.
  assert (bytes s ≠ []) as Hnil by (by rewrite bytes_nil).
  destruct (bytes s) as [|c l] eqn:Hb; [done|].
  rewrite bool_decide_eq_true_2 by (cbn [length]; lia).
  rewrite last_lookup. f_equal. cbn [length]. lia.
Qed.

Lemma slice_inner (s : string) (c0 cl : ascii) (mid : list ascii) :
  bytes s = c0 :: mid ++ [cl] ->
  slice s 1 (len s - 1) = Some (String.string_of_list_ascii mid).
Proof.
  intros Hb. unfold slice. rewrite len_bytes, Hb.
  cbn [length]. rewrite length_app. cbn [length].
  rewrite bool_decide_eq_true_2 by lia.
  do 2 f_equal. change (Z.to_nat 1) with 1%nat. cbn [drop].
  replace (Z.to_nat _) with (length mid) by lia.
  rewrite drop_0. by rewrite take_app_length.
Qed.

Lemma slice_single (s : string) (c : ascii) :
  bytes s = [c] -> slice s 1 (len s - 1) = None.
Proof.
  intros Hb. unfold slice. rewrite len_bytes, Hb. cbn [length].
  by rewrite bool_decide_eq_false_2 by lia.
Qed.

(** the shape of a byte sequence: empty, one byte, or two ends and a middle *)
Lemma bytes_shape (l : list ascii) :
  l = [] \/ (exists c, l = [c]) \/ exists c0 mid cl, l = c0 :: mid ++ [cl].
Proof.
  destruct l as [|c0 l]; [by left|]. right.
  destruct l as [|c1 l] using rev_ind; [left; eauto|].
  right. eauto.
Qed.

Lemma braces_check_spec (s : string) :
  exists b, braces_check s = Some b /\
            (b = true <-> exists mid, s = "{" +:+ mid +:+ "}").
Proof.
  unfold braces_check.
  destruct (bytes_shape (bytes s)) as [Hb|[[c Hb]|(c0 & mid & cl & Hb)]].
  - rewrite len_bytes, Hb. cbn. exists false. split; [reflexivity|].
    split; [discriminate|]. intros [m ->]. rewrite !bytes_app in Hb. discriminate Hb.
  - rewrite len_bytes, Hb. cbn. exists false. split; [reflexivity|].
    split; [discriminate|]. intros [m ->]. rewrite !bytes_app in Hb. cbn in Hb.
    injection Hb as _ Hb. by destruct (bytes m).
  - assert (s ≠ "") as Hne by (intros ->; discriminate Hb).
    rewrite at_index_head, (at_index_last s Hne), len_bytes, Hb.
    rewrite last_cons, last_snoc. cbn [head length]. rewrite length_app. cbn [length].
    rewrite bool_decide_eq_true_2 by lia. cbn.
    case_bool_decide as H0; cbn.
    + eexists. split; [reflexivity|]. rewrite bool_decide_eq_true. split.
      * intros ->. exists (String.string_of_list_ascii mid). apply bytes_inj.
        rewrite !bytes_app, bytes_of_list, Hb, H0. reflexivity.
      * intros [m ->]. rewrite !bytes_app in Hb. cbn in Hb.
        injection Hb as _ Hb. apply (f_equal last) in Hb.
        rewrite !last_snoc in Hb. congruence.
    + exists false. split; [reflexivity|]. split; [discriminate|].
      intros [m ->]. rewrite !bytes_app in Hb. cbn in Hb. congruence.
Qed.

Lemma Some_true_iff (b : bool) : Some b = Some true <-> b = true.
Proof. split; congruence. Qed.

Lemma isJSON_unfold (arg : string) :
  isJSON arg =
    if bool_decide (arg = "") then Some false
    else
      first ← at_index arg 0;
      quoted ← (if bool_decide (first = "'"%char)
                then last ← at_index arg (len arg - 1);
                     Some (bool_decide (last = "'"%char))
                else Some false);
      possibleJSON ← (if (quoted : bool) then slice arg 1 (len arg - 1) else Some arg);
      braces_check possibleJSON.
Proof. reflexivity. Qed.

(** X11. [isJSON] answers true exactly for an argument that opens with a
    brace and closes with one, bare or wrapped in a pair of single quotes;
    and it panics (slice bounds out of range) exactly on the argument made
    of one single quote. *)
Theorem isJSON_spec (arg : string) :
  (isJSON arg = None <-> arg = "'") /\
  (isJSON arg = Some true <->
   exists mid, arg = "{" +:+ mid +:+ "}" \/ arg = "'{" +:+ mid +:+ "}'").
Proof.
  rewrite isJSON_unfold.
  destruct (bytes_shape (bytes arg)) as [Hb|[[c Hb]|(c0 & mid & cl & Hb)]].
  - apply bytes_nil in Hb as ->. cbn. split.
    + split; discriminate.
    + split; [discriminate|]. intros [m [H|H]]; apply (f_equal bytes) in H;
        rewrite !bytes_app in H; discriminate H.
  - assert (arg ≠ "") as Hne by (intros ->; discriminate Hb).
    rewrite bool_decide_eq_false_2 by exact Hne.
    rewrite at_index_head, (at_index_last arg Hne), Hb. cbn [head last mbind option_bind].
    case_bool_decide as Hq; cbn [mbind option_bind].
    + rewrite (slice_single arg c Hb).
      cbn [mbind option_bind]. split.
      * split; [intros _|reflexivity]. apply bytes_inj. rewrite Hb, Hq. reflexivity.
      * split; [discriminate|]. intros [m [H|H]]; apply (f_equal bytes) in H;
          rewrite !bytes_app, Hb in H; cbn in H.
        -- injection H as _ H. by destruct (bytes m).
        -- injection H as _ H. by destruct (bytes m).
    + destruct (braces_check_spec arg) as (b & -> & Hbr). split.
      * split; [discriminate|]. intros ->. cbn in Hb. congruence.
      * rewrite Some_true_iff, Hbr. split; [intros [m ->]; eauto|].
        intros [m [H|H]]; [eauto|]. apply (f_equal bytes) in H.
        rewrite !bytes_app, Hb in H. cbn in H.
        injection H as _ H. by destruct (bytes m).
  - assert (arg ≠ "") as Hne by (intros ->; discriminate Hb).
    rewrite bool_decide_eq_false_2 by exact Hne.
    rewrite at_index_head, (at_index_last arg Hne), Hb.
    rewrite last_cons, last_snoc. cbn [head mbind option_bind].
    assert (Hnot : arg ≠ "'").
    { intros ->. cbn in Hb. injection Hb as _ Hb. by destruct mid. }
    destruct (bool_decide (c0 = "'"%char)) eqn:Hq0; cbn [mbind option_bind];
      [destruct (bool_decide (cl = "'"%char)) eqn:Hql|]; cbn [mbind option_bind].
    + apply bool_decide_eq_true in Hq0 as ->. apply bool_decide_eq_true in Hql as ->.
      rewrite (slice_inner arg _ _ mid Hb). cbn [mbind option_bind].
      destruct (braces_check_spec (String.string_of_list_ascii mid)) as (b & -> & Hbr).
      split; [split; [discriminate|contradiction]|].
      rewrite Some_true_iff, Hbr. split.
      * intros [m Hm]. exists m. right. apply bytes_inj.
        apply (f_equal bytes) in Hm. rewrite bytes_of_list in Hm.
        rewrite Hb, Hm, !bytes_app. cbn. rewrite <- !app_assoc. reflexivity.
      * intros [m [H|H]]; apply (f_equal bytes) in H; rewrite !bytes_app, Hb in H;
          cbn in H; [discriminate H|].
        injection H as H. exists m. apply bytes_inj.
        rewrite bytes_of_list, !bytes_app. cbn.
        change (bytes m ++ ["}"%char; "'"%char])
          with (bytes m ++ ["}"%char] ++ ["'"%char]) in H.
        rewrite app_assoc, app_comm_cons in H.
        by apply app_inj_tail in H as [H _].
    + destruct (braces_check_spec arg) as (b & -> & Hbr).
      split; [split; [discriminate|contradiction]|].
      rewrite Some_true_iff, Hbr. split; [intros [m ->]; eauto|].
      intros [m [H|H]]; [eauto|]. apply (f_equal bytes) in H.
      rewrite !bytes_app, Hb in H. cbn in H. injection H as _ H.
      apply (f_equal last) in H.
      change (bytes m ++ ["}"%char; "'"%char])
        with (bytes m ++ ["}"%char] ++ ["'"%char]) in H.
      rewrite app_assoc, app_comm_cons in H.
      rewrite !last_snoc in H. apply bool_decide_eq_false in Hql. congruence.
    + destruct (braces_check_spec arg) as (b & -> & Hbr).
      split; [split; [discriminate|contradiction]|].
      rewrite Some_true_iff, Hbr. split; [intros [m ->]; eauto|].
      intros [m [H|H]]; [eauto|]. apply (f_equal bytes) in H.
      rewrite !bytes_app, Hb in H. cbn in H. injection H as H _.
      apply bool_decide_eq_false in Hq0. congruence.
Qed.

Example makePairs_examples :
  makePairs ["a"] = Err "invalid key-value pair %q" ["a"] /\
  makePairs ["="] = Err "invalid key-value pair %q" ["="] /\
  cleanFlag "refresh,r" = Some "refresh" /\ cleanFlag "" = Some "" /\
  strings_Split "a,b,,c" "," = ["a"; "b"; ""; "c"] /\
  strings_Split "" "," = [""] /\
  strings_SplitN "a=b=c" "=" 2 = ["a"; "b=c"].
Proof. vm_compute. repeat split. Qed.

(** *** Cutting at a one-byte separator *)

Lemma prefix_char (c : ascii) (s : string) :
  String.prefix (String c "") s =
    match s with
    | String d _ => bool_decide (c = d)
    | EmptyString => false
    end.
Proof.
  destruct s as [|d s]; [reflexivity|]. cbn.
  destruct (Ascii.ascii_dec c d) as [->|Hne].
  - rewrite bool_decide_eq_true_2 by reflexivity. by destruct s.
  - by rewrite bool_decide_eq_false_2.
Qed.

Lemma Index_char_unfold (c : ascii) (d : ascii) (s : string) :
  strings_Index (String d s) (String c "") =
    if bool_decide (c = d) then 0
    else let i := strings_Index s (String c "") in if (i <? 0)%Z then -1 else i + 1.
Proof.
  change (strings_Index (String d s) (String c ""))
    with (if String.prefix (String c "") (String d s) then 0
          else let i := strings_Index s (String c "") in
               if (i <? 0)%Z then -1 else i + 1).
  by rewrite prefix_char.
Qed.

(** the first occurrence of a byte: either there is none, or the string is
    a part free of it, the byte, and a rest *)
Lemma Index_char_spec (c : ascii) (s : string) :
  ((c ∉ bytes s) /\ strings_Index s (String c "") = -1) \/
  (exists k v, s = k +:+ String c v /\ (c ∉ bytes k) /\
               strings_Index s (String c "") = len k).
Proof.
  induction s as [|d s IH].
  - left. split; [apply not_elem_of_nil | reflexivity].
  - rewrite Index_char_unfold. case_bool_decide as Hcd.
    + subst d. right. exists "", s. repeat split. apply not_elem_of_nil.
    + destruct IH as [[Hno ->]|(k & v & -> & Hno & ->)].
      * left. split; [|reflexivity]. cbn. apply not_elem_of_cons. done.
      * right. exists (String d k), v. split; [reflexivity|]. split.
        -- cbn. apply not_elem_of_cons. done.
        -- cbv zeta. unfold len. cbn [String.length].
           destruct (Z.ltb_spec (Z.of_nat (String.length k)) 0); lia.
Qed.

Lemma Index_char_absent (c : ascii) (s : string) :
  c ∉ bytes s -> strings_Index s (String c "") = -1.
Proof.
  intros Hno. destruct (Index_char_spec c s) as [[_ H]|(k & v & -> & _ & _)]; [exact H|].
  exfalso. apply Hno. rewrite bytes_app. apply elem_of_app. right. cbn.
  apply elem_of_cons. by left.
Qed.

Lemma Index_char_first (c : ascii) (k v : string) :
  c ∉ bytes k -> strings_Index (k +:+ String c v) (String c "") = len k.
Proof.
  intros Hno. induction k as [|d k IH].
  - change ("" +:+ String c v) with (String c v). rewrite Index_char_unfold.
    by rewrite bool_decide_eq_true_2.
  - change (String d k +:+ String c v) with (String d (k +:+ String c v)).
    cbn in Hno. apply not_elem_of_cons in Hno as [Hcd Hno].
    rewrite Index_char_unfold, bool_decide_eq_false_2 by exact Hcd.
    rewrite (IH Hno). cbv zeta. unfold len. cbn [String.length].
    destruct (Z.ltb_spec (Z.of_nat (String.length k)) 0); lia.
Qed.

Lemma take_bytes_app (k r : string) :
  String.string_of_list_ascii (take (Z.to_nat (len k)) (bytes (k +:+ r))) = k.
Proof.
  apply bytes_inj. rewrite bytes_of_list, bytes_app, len_bytes, Nat2Z.id.
  by rewrite take_app_length.
Qed.

Lemma drop_bytes_app (c : ascii) (k v : string) :
  String.string_of_list_ascii
    (drop (Z.to_nat (len k + len (String c ""))) (bytes (k +:+ String c v))) = v.
Proof.
  apply bytes_inj. rewrite bytes_of_list, bytes_app, len_bytes.
  change (len (String c "")) with 1.
  replace (Z.to_nat _) with (length (bytes k) + 1)%nat by lia.
  rewrite <- drop_drop, drop_app_length. reflexivity.
Qed.

Lemma count_byte_absent (c : ascii) (s : string) :
  c ∉ bytes s -> count_byte c s = 0%nat.
Proof.
  unfold count_byte. induction (bytes s) as [|d l IH]; intros Hno; [reflexivity|].
  apply not_elem_of_cons in Hno as [Hcd Hno].
  rewrite filter_cons_False by congruence. auto.
Qed.

Lemma count_byte_cut (c : ascii) (k v : string) :
  c ∉ bytes k -> count_byte c (k +:+ String c v) = S (count_byte c v).
Proof.
  intros Hno. pose proof (count_byte_absent c k Hno) as Hk.
  unfold count_byte in *. rewrite bytes_app, filter_app, length_app, Hk.
  cbn [bytes String.list_ascii_of_string]. rewrite filter_cons_True by reflexivity.
  reflexivity.
Qed.

Lemma count_byte_le (c : ascii) (s : string) : (count_byte c s <= String.length s)%nat.
Proof.
  unfold count_byte. pose proof (len_bytes s) as Hl. unfold len in Hl.
  pose proof (length_filter (fun x => x = c) (bytes s)). lia.
Qed.

(** [Split] at a one-byte separator: the pieces hold no separator, joined by
    it they give back the string, and there is one more piece than there
    are separators *)
Lemma split_loop_char (c : ascii) (cuts : nat) :
  forall s,
    (count_byte c s <= cuts)%nat ->
    exists p0 rest,
      split_loop cuts s (String c "") = p0 :: rest /\
      strings_Join (p0 :: rest) (String c "") = s /\
      (forall p, p ∈ p0 :: rest -> c ∉ bytes p) /\
      length (p0 :: rest) = S (count_byte c s).
Proof.
  induction cuts as [|cuts IH]; intros s Hcount.
  - assert (Hno : c ∉ bytes s).
    { destruct (Index_char_spec c s) as [[H _]|(k & v & -> & Hk & _)]; [exact H|].
      rewrite (count_byte_cut c k v Hk) in Hcount. lia. }
    exists s, []. cbn [split_loop]. repeat split.
    + intros p Hp. apply list_elem_of_singleton in Hp as ->. exact Hno.
    + by rewrite (count_byte_absent c s Hno).
  - cbn [split_loop].
    destruct (Index_char_spec c s) as [[Hno ->]|(k & v & -> & Hk & ->)]; cbv zeta.
    + exists s, []. cbn. repeat split.
      * intros p Hp. apply list_elem_of_singleton in Hp as ->. exact Hno.
      * by rewrite (count_byte_absent c s Hno).
    + assert ((len k <? 0)%Z = false) as -> by (apply Z.ltb_ge; unfold len; lia).
      rewrite take_bytes_app, drop_bytes_app.
      rewrite (count_byte_cut c k v Hk) in Hcount.
      destruct (IH v ltac:(lia)) as (p0 & rest & -> & Hjoin & Hfree & Hlen).
      exists k, (p0 :: rest). repeat split.
      * change (strings_Join (k :: p0 :: rest) (String c ""))
          with (k +:+ String c "" +:+ strings_Join (p0 :: rest) (String c "")).
        rewrite Hjoin. reflexivity.
      * intros p Hp. apply elem_of_cons in Hp as [->|Hp]; [exact Hk|auto].
      * cbn [length] in *. rewrite (count_byte_cut c k v Hk). lia.
Qed.

Lemma split_loop_absent (c : ascii) (cuts : nat) (s : string) :
  c ∉ bytes s -> split_loop cuts s (String c "") = [s].
Proof.
  intros Hno. destruct cuts; [reflexivity|]. cbn [split_loop].
  by rewrite (Index_char_absent c s Hno).
Qed.

Lemma Split_char (c : ascii) (s : string) :
  exists p0 rest,
    strings_Split s (String c "") = p0 :: rest /\
    strings_Join (p0 :: rest) (String c "") = s /\
    (forall p, p ∈ p0 :: rest -> c ∉ bytes p) /\
    length (p0 :: rest) = S (count_byte c s).
Proof.
  unfold strings_Split, strings_SplitN.
  change (-1 =? 0)%Z with false. change (-1 <? 0)%Z with true. cbv iota.
  rewrite bool_decide_eq_false_2 by discriminate.
  apply split_loop_char, count_byte_le.
Qed.

(** X12. [cleanFlag] never panics: it returns the flag name up to its first
    comma, which holds no comma, and cleaning a cleaned name changes
    nothing. *)
Theorem cleanFlag_spec (flag : string) :
  exists name,
    cleanFlag flag = Some name /\
    (","%char ∉ bytes name) /\
    (flag = name \/ exists rest, flag = name +:+ "," +:+ rest) /\
    cleanFlag name = Some name.
Proof.
  unfold cleanFlag.
  destruct (Split_char ","%char flag) as (p0 & rest & -> & Hjoin & Hfree & _).
  exists p0. split; [reflexivity|].
  assert (Hp0 : ","%char ∉ bytes p0) by (apply Hfree, elem_of_cons; by left).
  split; [exact Hp0|]. split.
  - destruct rest as [|p1 rest]; [left; by rewrite <- Hjoin|].
    right. exists (strings_Join (p1 :: rest) ","). by rewrite <- Hjoin.
  - unfold strings_Split, strings_SplitN.
    change (-1 =? 0)%Z with false. change (-1 <? 0)%Z with true. cbv iota.
    rewrite bool_decide_eq_false_2 by discriminate.
    by rewrite (split_loop_absent ","%char _ p0 Hp0).
Qed.

(** X13. [makeList] returns the trimmed pieces of the list between its
    commas: the pieces hold no comma and give back the list when joined by
    commas, and there is one entry more than commas, so that the result is
    never empty (the empty string gives one entry). *)
Theorem makeList_spec (TrimSpace : string -> string) (list : string) :
  exists pieces,
    makeList TrimSpace list = TrimSpace <$> pieces /\
    strings_Join pieces "," = list /\
    (forall p, p ∈ pieces -> ","%char ∉ bytes p) /\
    length (makeList TrimSpace list) = S (count_byte ","%char list).
Proof.
  unfold makeList.
  destruct (Split_char ","%char list) as (p0 & rest & -> & Hjoin & Hfree & Hlen).
  exists (p0 :: rest). split; [reflexivity|]. split; [exact Hjoin|].
  split; [exact Hfree|]. by rewrite length_fmap.
Qed.

(** *** [makePairs] *)

Lemma joined_token (k v : string) :
  "="%char ∉ bytes k -> k ≠ "" \/ v ≠ "" ->
  (bool_decide (k +:+ "=" +:+ v ≠ keyAndValueSeparator)
   && strings_Contains (k +:+ "=" +:+ v) keyAndValueSeparator) = true /\
  strings_SplitN (k +:+ "=" +:+ v) keyAndValueSeparator 2 = [k; v].
Proof.
  intros Hk Hne. unfold keyAndValueSeparator, strings_Contains.
  change (k +:+ "=" +:+ v) with (k +:+ String "="%char v).
  rewrite (Index_char_first "="%char k v Hk). split.
  - apply andb_true_intro. split.
    + apply bool_decide_eq_true_2. intros Heq. apply (f_equal bytes) in Heq.
      rewrite bytes_app in Heq. cbn in Heq.
      destruct (bytes k) as [|? [|? ?]] eqn:Hbk; cbn in Heq; try discriminate Heq.
      injection Heq as Hv. apply bytes_nil in Hbk. apply bytes_nil in Hv.
      destruct Hne; congruence.
    + apply bool_decide_eq_true_2. unfold len. lia.
  - unfold strings_SplitN. change (2 =? 0)%Z with false. change (2 <? 0)%Z with false.
    cbv iota. rewrite bool_decide_eq_false_2 by discriminate.
    change (Z.to_nat (2 - 1)) with 1%nat. cbn [split_loop].
    rewrite (Index_char_first "="%char k v Hk).
    assert ((len k <? 0)%Z = false) as -> by (apply Z.ltb_ge; unfold len; lia).
    by rewrite take_bytes_app, drop_bytes_app.
Qed.

Lemma plain_token (a : string) :
  "="%char ∉ bytes a ->
  (bool_decide (a ≠ keyAndValueSeparator)
   && strings_Contains a keyAndValueSeparator) = false.
Proof.
  intros Ha. unfold keyAndValueSeparator, strings_Contains.
  rewrite (Index_char_absent "="%char a Ha). apply andb_false_r.
Qed.

Lemma makePairs_item (it : item) (more : list string) (nvs : gmap string string) :
  item_ok it ->
  makePairs_loop (item_tokens it ++ more) nvs = makePairs_loop more (assign nvs it).
Proof.
  intros [Hkey Hit]. destruct it as [k v|k v|k v]; cbn [item_key] in Hkey;
    cbn [item_tokens app makePairs_loop].
  - destruct (joined_token k v Hkey Hit) as [-> ->]. reflexivity.
  - rewrite (plain_token k Hkey). rewrite bool_decide_eq_true_2 by reflexivity.
    reflexivity.
  - rewrite (plain_token k Hkey). destruct more as [|c rest2]; [reflexivity|].
    rewrite bool_decide_eq_false_2 by exact Hit. reflexivity.
Qed.

Lemma makePairs_items_loop (items : list item) :
  forall (more : list string) (nvs : gmap string string),
    Forall item_ok items ->
    makePairs_loop ((items ≫= item_tokens) ++ more) nvs
    = makePairs_loop more (foldl assign nvs items).
Proof.
  induction items as [|it items IH]; intros more nvs Hok; [reflexivity|].
  apply Forall_cons in Hok as [Hit Hok].
  rewrite bind_cons, <- app_assoc, (makePairs_item it _ nvs Hit).
  apply (IH more (assign nvs it) Hok).
Qed.

(** X14. For arguments that spell a sequence of keys and values, each
    written [key=value], [key = value] or [key value] (the key without [=],
    a plain value other than [=]), [makePairs] returns the map obtained by
    assigning the values to the keys in order, a later assignment to the
    same key replacing the earlier one. *)
Theorem makePairs_items (items : list item) :
  Forall item_ok items ->
  makePairs (items ≫= item_tokens) = Ok (foldl assign ∅ items).
Proof.
  intros Hok. unfold makePairs.
  rewrite <- (app_nil_r (items ≫= item_tokens)).
  by rewrite (makePairs_items_loop items [] ∅ Hok).
Qed.

(** X15. A key left without a value at the end of the arguments makes
    [makePairs] fail with "invalid key-value pair", whatever well-formed
    keys and values come before it; no map is returned. *)
Theorem makePairs_dangling_key (items : list item) (k : string) :
  Forall item_ok items ->
  "="%char ∉ bytes k ->
  makePairs ((items ≫= item_tokens) ++ [k])
  = Err "invalid key-value pair %q" [k].
Proof.
  intros Hok Hk. unfold makePairs.
  rewrite (makePairs_items_loop items [k] ∅ Hok).
  cbn [makePairs_loop]. by rewrite (plain_token k Hk).
Qed.

(** a byte that differs from each byte of a given string *)
Ltac absent_byte :=
  let H := fresh "Hin" in
  cbn; intros H;
  repeat (apply elem_of_cons in H as [H|H]; [discriminate H|]);
  apply elem_of_nil in H; exact H.

Lemma three_items_ok : Forall item_ok three_items.
Proof.
  unfold three_items.
  apply List.Forall_cons; [split; [absent_byte | left; discriminate]|].
  apply List.Forall_cons; [split; [absent_byte | exact I]|].
  apply List.Forall_cons; [split; [absent_byte | discriminate]|].
  apply List.Forall_nil.
Qed.

Lemma makePairs_items_witness :
  Forall item_ok three_items /\
  makePairs ["a=b"; "c"; "="; "d"; "e"; "f"]
  = Ok (<["e" := "f"]> (<["c" := "d"]> (<["a" := "b"]> ∅))).
Proof.
  split; [exact three_items_ok|].
  exact (makePairs_items three_items three_items_ok).
Defined.

Lemma makePairs_dangling_key_witness :
  Forall item_ok three_items /\
  ("="%char ∉ bytes "g") /\
  makePairs ["a=b"; "c"; "="; "d"; "e"; "f"; "g"]
  = Err "invalid key-value pair %q" ["g"].
Proof.
  assert (Hg : "="%char ∉ bytes "g") by absent_byte.
  split; [exact three_items_ok|]. split; [exact Hg|].
  exact (makePairs_dangling_key three_items "g" three_items_ok Hg).
Defined.

(** *** Command suggestions *)

(** the loop keeps its state, when no candidate is closer than the initial
    distance, or ends on the first candidate of least distance *)
Lemma closest_loop_inv (distance_of : string -> string -> Z) (cmd : string)
    (l : list cli_Command) :
  forall name mn,
    (foldl (closest_step distance_of cmd) (name, mn) l = (name, mn) /\
     forall c, c ∈ l -> mn <= distance_of cmd (Name c))
    \/
    (exists l1 c l2,
        l = l1 ++ c :: l2 /\
        foldl (closest_step distance_of cmd) (name, mn) l
        = (Name c, distance_of cmd (Name c)) /\
        distance_of cmd (Name c) < mn /\
        (forall c', c' ∈ l1 -> distance_of cmd (Name c) < distance_of cmd (Name c')) /\
        (forall c', c' ∈ l2 -> distance_of cmd (Name c) <= distance_of cmd (Name c'))).
Proof.
  induction l as [|c0 l IH]; intros name mn.
  - left. split; [reflexivity|]. intros c Hin. inversion Hin.
  - cbn [foldl closest_step].
    destruct (Z.ltb_spec (distance_of cmd (Name c0)) mn) as [Hlt|Hge].
    + destruct (IH (Name c0) (distance_of cmd (Name c0)))
        as [[Heq Hall]|(l1 & c & l2 & -> & Heq & Hlt' & Hbefore & Hafter)].
      * right. exists [], c0, l.
        split; [reflexivity|]. split; [exact Heq|]. split; [exact Hlt|].
        split; [|exact Hall]. intros c' Hin. inversion Hin.
      * right. exists (c0 :: l1), c, l2.
        split; [reflexivity|]. split; [exact Heq|]. split; [lia|].
        split; [|exact Hafter].
        intros c' Hin. apply elem_of_cons in Hin as [->|Hin]; [lia|auto].
    + destruct (IH name mn)
        as [[Heq Hall]|(l1 & c & l2 & -> & Heq & Hlt' & Hbefore & Hafter)].
      * left. split; [assumption|].
        intros c' Hin. apply elem_of_cons in Hin as [->|Hin]; [lia|auto].
      * right. exists (c0 :: l1), c, l2.
        split; [reflexivity|]. split; [exact Heq|]. split; [exact Hlt'|].
        split; [|exact Hafter].
        intros c' Hin. apply elem_of_cons in Hin as [->|Hin]; [lia|auto].
Qed.

(** X16. [findClosestCommand] returns the name and the distance of the
    first candidate of least distance, when every distance is below
    [math.MaxInt64]; without candidates it returns the empty name and
    [math.MaxInt64]. *)
Theorem findClosestCommand_spec (distance_of : string -> string -> Z)
    (cmd : string) (candidates : list cli_Command) :
  (forall c, c ∈ candidates -> distance_of cmd (Name c) < MaxInt64) ->
  match candidates with
  | [] => findClosestCommand distance_of cmd candidates = ("", MaxInt64)
  | _ :: _ =>
      exists l1 c l2,
        candidates = l1 ++ c :: l2 /\
        findClosestCommand distance_of cmd candidates
        = (Name c, distance_of cmd (Name c)) /\
        (forall c', c' ∈ l1 -> distance_of cmd (Name c) < distance_of cmd (Name c')) /\
        (forall c', c' ∈ l2 -> distance_of cmd (Name c) <= distance_of cmd (Name c'))
  end.
Proof.
  intros Hbound. destruct candidates as [|c0 l]; [reflexivity|].
  unfold findClosestCommand.
  destruct (closest_loop_inv distance_of cmd (c0 :: l) "" MaxInt64)
    as [[_ Hall]|(l1 & c & l2 & Hsplit & Heq & _ & Hbefore & Hafter)].
  - exfalso. assert (Hin : c0 ∈ c0 :: l) by (apply elem_of_cons; by left).
    specialize (Hall c0 Hin). specialize (Hbound c0 Hin). lia.
  - exists l1, c, l2. auto.
Qed.

Lemma some_commands_bounded :
  forall c, c ∈ some_commands -> length_distance "lst" (Name c) < MaxInt64.
Proof.
  intros c Hin. unfold some_commands in Hin.
  repeat (apply elem_of_cons in Hin as [->|Hin]; [vm_compute; reflexivity|]).
  by apply elem_of_nil in Hin.
Qed.

Lemma findClosestCommand_spec_witness :
  (forall c, c ∈ some_commands -> length_distance "lst" (Name c) < MaxInt64) /\
  exists l1 c l2,
    some_commands = l1 ++ c :: l2 /\
    findClosestCommand length_distance "lst" some_commands
    = (Name c, length_distance "lst" (Name c)) /\
    (forall c', c' ∈ l1 ->
                length_distance "lst" (Name c) < length_distance "lst" (Name c')) /\
    (forall c', c' ∈ l2 ->
                length_distance "lst" (Name c) <= length_distance "lst" (Name c')).
Proof.
  split; [exact some_commands_bounded|].
  exact (findClosestCommand_spec length_distance "lst" some_commands
           some_commands_bounded).
Defined.

(** X17. [didYouMeanMessage] makes no suggestion (it returns the empty
    string) exactly when every visible command is at distance at least
    [max(3, len(cmd)/2)] from the command typed, in particular when there is
    no visible command; when it has a suggestion to make and the context
    holds no argument at all, it panics on [c.Args()[1:]]. *)
Theorem didYouMeanMessage_spec (distance_of : string -> string -> Z)
    (quote : string -> string) (c : cli_Context) (cmd : string) :
  len cmd <= MaxInt64 ->
  (didYouMeanMessage distance_of quote c cmd = Some "" <->
   forall v, v ∈ App_VisibleCommands c ->
             Z.max 3 (Z.quot (len cmd) 2) <= distance_of cmd (Name v)) /\
  (didYouMeanMessage distance_of quote c cmd = None <->
   Args c = [] /\
   exists v, v ∈ App_VisibleCommands c /\
             distance_of cmd (Name v) < Z.max 3 (Z.quot (len cmd) 2)).
Proof.
  intros Hlen. unfold didYouMeanMessage, findClosestCommand, incorrectCmdDistance.
  assert (Hthr : Z.max 3 (Z.quot (len cmd) 2) <= MaxInt64).
  { assert (0 <= len cmd) by (unfold len; lia).
    pose proof (Z.quot_le_upper_bound (len cmd) 2 (len cmd)).
    unfold MaxInt64 in *. lia. }
  destruct (closest_loop_inv distance_of cmd (App_VisibleCommands c) "" MaxInt64)
    as [[-> Hall]|(l1 & w & l2 & Hsplit & -> & Hlt & Hbefore & Hafter)].
  - rewrite bool_decide_eq_true_2 by exact Hthr. split.
    + split; [intros _ v Hv; specialize (Hall v Hv); lia | reflexivity].
    + split; [discriminate|]. intros [_ (v & Hv & Hd)]. specialize (Hall v Hv). lia.
  - assert (Hmin : forall v, v ∈ App_VisibleCommands c ->
                             distance_of cmd (Name w) <= distance_of cmd (Name v)).
    { intros v Hv. rewrite Hsplit in Hv. apply elem_of_app in Hv as [Hv|Hv].
      - specialize (Hbefore v Hv). lia.
      - apply elem_of_cons in Hv as [->|Hv]; [lia|auto]. }
    assert (Hw : w ∈ App_VisibleCommands c) by (rewrite Hsplit; apply elem_of_middle).
    case_bool_decide as Hfar.
    + split.
      * split; [intros _ v Hv; specialize (Hmin v Hv); lia | reflexivity].
      * split; [discriminate|]. intros [_ (v & Hv & Hd)]. specialize (Hmin v Hv). lia.
    + destruct (Args c) as [|a0 tail]; split.
      * split; [discriminate|]. intros Hall. specialize (Hall w Hw). lia.
      * split; [intros _|reflexivity]. split; [reflexivity|]. exists w. split; [exact Hw|lia].
      * split; [intros [=]|]. intros Hall. specialize (Hall w Hw). lia.
      * split; [discriminate|]. intros [[=] _].
Qed.

Lemma didYouMeanMessage_spec_witness :
  len "lst" <= MaxInt64 /\
  (didYouMeanMessage length_distance (fun s => s) some_context "lst" = Some "" <->
   forall v, v ∈ App_VisibleCommands some_context ->
             Z.max 3 (Z.quot (len "lst") 2) <= length_distance "lst" (Name v)) /\
  (didYouMeanMessage length_distance (fun s => s) some_context "lst" = None <->
   Args some_context = [] /\
   exists v, v ∈ App_VisibleCommands some_context /\
             length_distance "lst" (Name v) < Z.max 3 (Z.quot (len "lst") 2)).
Proof.
  assert (Hlen : len "lst" <= MaxInt64) by (vm_compute; discriminate).
  split; [exact Hlen|].
  exact (didYouMeanMessage_spec length_distance (fun s => s) some_context "lst" Hlen).
Defined.

Example didYouMeanMessage_example :
  didYouMeanMessage length_distance (fun s => s) some_context "lst"
  = Some "Did you mean: ais show bucket --all?".
Proof. vm_compute. reflexivity. Qed.

(** *** [limitedLineWriter] *)

Example limitedLineWriter_examples :
  limitedLineWriter 2 "%s %s" [["a"; "b"; "c"]; ["1"; "2"; "3"; "4"]]
  = Some ([Fprintf ("%s %s" +:+ nl) ["a"; "1"]; Fprintf ("%s %s" +:+ nl) ["b"; "2"];
           FprintfMore 1], Returned) /\
  limitedLineWriter 0 "%s" [["a"; "b"]]
  = Some ([Fprintf ("%s" +:+ nl) ["a"]; FprintfMore 1], Returned) /\
  limitedLineWriter (-1) "%s" [["a"; "b"]]
  = Some ([Fprintf ("%s" +:+ nl) ["a"]; Fprintf ("%s" +:+ nl) ["b"]], Returned) /\
  limitedLineWriter 5 "%s" [["a"]; []] = Some ([], Panicked).
Proof. vm_compute. repeat split. Qed.

Lemma with_newline_spec (fmtStr : string) :
  exists fmt', with_newline fmtStr = Some fmt' /\
               (fmt' = fmtStr \/ fmt' = fmtStr +:+ nl) /\
               last (bytes fmt') = Some newline.
Proof.
  unfold with_newline. case_bool_decide as Hempty.
  - subst fmtStr. exists nl. auto.
  - rewrite (at_index_last fmtStr Hempty).
    destruct (last (bytes fmtStr)) as [c|] eqn:Hlast.
    + cbn [mbind option_bind]. case_bool_decide as Hc.
      * exists (fmtStr +:+ nl). split; [reflexivity|]. split; [by right|].
        rewrite bytes_app. apply last_snoc.
      * exists fmtStr. split; [reflexivity|]. split; [by left|].
        rewrite Hlast. f_equal. destruct (decide (c = newline)); [done|contradiction].
    + apply last_None in Hlast. apply bytes_nil in Hlast. contradiction.
Qed.

Lemma min_len_fold (args : list (list string)) :
  forall m,
    let r := foldl (fun minLen a => Z.min minLen (Z.of_nat (length a))) m args in
    r <= m /\
    (forall a, a ∈ args -> r <= Z.of_nat (length a)) /\
    (r = m \/ exists a, a ∈ args /\ r = Z.of_nat (length a)).
Proof.
  induction args as [|a0 args IH]; intros m; cbn [foldl].
  - split; [lia|]. split; [|by left]. intros a Hin. inversion Hin.
  - destruct (IH (Z.min m (Z.of_nat (length a0)))) as (Hle & Hall & Hex).
    cbv zeta in *. split; [lia|]. split.
    + intros a Hin. apply elem_of_cons in Hin as [->|Hin]; [lia|auto].
    + destruct Hex as [Heq|(a & Hin & Heq)].
      * destruct (Z.min_spec m (Z.of_nat (length a0))) as [[_ Hm]|[_ Hm]].
        -- left. congruence.
        -- right. exists a0. split; [apply elem_of_cons; by left|congruence].
      * right. exists a. split; [apply elem_of_cons; by right|exact Heq].
Qed.

Lemma line_objs_row (args : list (list string)) (i : nat) :
  (forall a, a ∈ args -> (i < length a)%nat) ->
  line_objs args i = Some (row args i).
Proof.
  unfold line_objs, row. induction args as [|a args IH]; intros Hall; [reflexivity|].
  cbn [mapM]. rewrite fmap_cons.
  assert (Hi : (i < length a)%nat) by (apply Hall, elem_of_cons; by left).
  destruct (lookup_lt_is_Some_2 a i Hi) as [x Hx].
  rewrite Hx, (nth_lookup_Some a i "" x Hx). cbn [mbind option_bind].
  rewrite IH by (intros b Hb; apply Hall, elem_of_cons; by right).
  reflexivity.
Qed.

Lemma line_objs_empty_column (args : list (list string)) :
  [] ∈ args -> line_objs args 0 = None.
Proof.
  unfold line_objs. induction args as [|a args IH]; intros Hin; [inversion Hin|].
  cbn [mapM]. apply elem_of_cons in Hin as [<-|Hin]; [reflexivity|].
  rewrite (IH Hin). by destruct (a !! 0%nat).
Qed.

Lemma exhausted_iff (args : list (list string)) (i : nat) :
  existsb (fun a : list string => (length a <=? i)%nat) args = true <->
  exists a, a ∈ args /\ (length a <= i)%nat.
Proof.
  rewrite existsb_exists. split; intros (a & Hin & Hle); exists a.
  - apply list_elem_of_In in Hin. apply Nat.leb_le in Hle. auto.
  - apply list_elem_of_In in Hin. apply Nat.leb_le in Hle. auto.
Qed.

Lemma line_loop_run (maxLines : Z) (fmt : string) (args : list (list string)) (K : nat) :
  args ≠ [] ->
  (forall a, a ∈ args -> Z.of_nat (length a) < MaxInt64) ->
  Z.of_nat K = Z.min (min_len args) (Z.max maxLines 1) ->
  forall d i fuel out,
    (i + d = K)%nat -> (1 <= d)%nat -> (d <= fuel)%nat ->
    line_loop fuel maxLines (min_len args) fmt args i out =
      Some (out ++ ((fun j => Fprintf fmt (row args j)) <$> seq i d) ++
            (if bool_decide (Z.of_nat K < min_len args)
             then [FprintfMore (min_len args - Z.of_nat K)] else []),
            Returned).
Proof.
  intros Hne Hbound HK.
  destruct (min_len_fold args MaxInt64) as (_ & Hmin & Hex). cbv zeta in Hmin, Hex.
  fold (min_len args) in Hmin, Hex.
  assert (Hwit : exists a, a ∈ args /\ min_len args = Z.of_nat (length a)).
  { destruct Hex as [Heq|Hex]; [|exact Hex].
    destruct args as [|a args]; [done|].
    assert (Ha : a ∈ a :: args) by (apply elem_of_cons; by left).
    specialize (Hmin a Ha). specialize (Hbound a Ha). lia. }
  clear Hex.
  induction d as [|d IH]; intros i fuel out Hid Hd Hfuel; [lia|].
  destruct fuel as [|fuel]; [lia|]. cbn [line_loop].
  rewrite line_objs_row by (intros a Ha; specialize (Hmin a Ha); lia).
  cbv zeta. destruct d as [|d].
  - (* the last line *)
    assert (HiK : S i = K) by lia. rewrite HiK. cbn [seq fmap list_fmap].
    destruct (existsb (fun a : list string => (length a <=? K)%nat) args) eqn:Hex.
    + apply exhausted_iff in Hex as (a & Ha & Hle). specialize (Hmin a Ha).
      rewrite bool_decide_eq_false_2 by lia. by rewrite app_nil_r.
    + assert (Hlt : Z.of_nat K < min_len args).
      { destruct Hwit as (a & Ha & Heq).
        destruct (Z.lt_ge_cases (Z.of_nat K) (min_len args)) as [|Hge]; [done|].
        assert (existsb (fun a : list string => (length a <=? K)%nat) args = true) as Htrue
            by (apply exhausted_iff; exists a; split; [exact Ha|lia]).
        congruence. }
      rewrite !bool_decide_eq_true_2 by lia. by rewrite <- app_assoc.
  - (* more lines to come *)
    assert (Hex : existsb (fun a : list string => (length a <=? S i)%nat) args = false).
    { apply not_true_is_false. intros Hex.
      apply exhausted_iff in Hex as (a & Ha & Hle). specialize (Hmin a Ha). lia. }
    rewrite Hex. rewrite bool_decide_eq_false_2 by lia.
    rewrite (IH (S i) fuel _ ltac:(lia) ltac:(lia) ltac:(lia)).
    cbn [seq fmap list_fmap]. by rewrite <- !app_assoc.
Qed.

(** X18. For columns none of which is empty, [limitedLineWriter] ends and
    writes the first [n] lines, line [i] of the format (with a final
    newline) holding entry [i] of every column, where [n] is the lesser of
    the shortest column's length and of [maxLines], counted as 1 when it is
    0 and as unbounded when it is negative; the lines are followed by
    ["(and k more)"] exactly when the shortest column has [k > 0] entries
    left. So [maxLines = 0] still writes one line. *)
Theorem limitedLineWriter_lines (maxLines : Z) (fmtStr : string)
    (args : list (list string)) :
  args ≠ [] ->
  (forall a, a ∈ args -> a ≠ [] /\ Z.of_nat (length a) < MaxInt64) ->
  maxLines <= MaxInt64 ->
  exists fmt',
    with_newline fmtStr = Some fmt' /\
    let limit := if (maxLines <? 0)%Z then MaxInt64 else Z.max maxLines 1 in
    let n := Z.to_nat (Z.min (min_len args) limit) in
    limitedLineWriter maxLines fmtStr args =
      Some (((fun i => Fprintf fmt' (row args i)) <$> seq 0 n) ++
            (if bool_decide (Z.of_nat n < min_len args)
             then [FprintfMore (min_len args - Z.of_nat n)] else []),
            Returned).
Proof.
  intros Hne Hcols Hmax.
  destruct (with_newline_spec fmtStr) as (fmt' & Hfmt & _).
  exists fmt'. split; [exact Hfmt|]. cbv zeta.
  unfold limitedLineWriter. rewrite Hfmt. cbn [mbind option_bind].
  set (maxL := if (maxLines <? 0)%Z then MaxInt64 else maxLines).
  assert (HmaxL : 0 <= maxL <= MaxInt64).
  { unfold maxL. destruct (Z.ltb_spec maxLines 0); unfold MaxInt64 in *; lia. }
  assert (Hlimit : (if (maxLines <? 0)%Z then MaxInt64 else Z.max maxLines 1)
                   = Z.max maxL 1).
  { unfold maxL. destruct (Z.ltb_spec maxLines 0); unfold MaxInt64; lia. }
  rewrite Hlimit.
  destruct (min_len_fold args MaxInt64) as (_ & Hmin & Hex). cbv zeta in Hmin, Hex.
  fold (min_len args) in Hmin, Hex.
  assert (Hpos : 1 <= min_len args).
  { destruct Hex as [->|(a & Ha & ->)]; [unfold MaxInt64; lia|].
    destruct (Hcols a Ha) as [Hnil _]. destruct a; [done|]. cbn [length]. lia. }
  set (K := Z.to_nat (Z.min (min_len args) (Z.max maxL 1))).
  assert (HK : Z.of_nat K = Z.min (min_len args) (Z.max maxL 1)) by (unfold K; lia).
  assert (Hbound : forall a, a ∈ args -> Z.of_nat (length a) < MaxInt64)
    by (intros a Ha; apply (Hcols a Ha)).
  assert (H1 : (0 + K = K)%nat) by reflexivity.
  assert (H2 : (1 <= K)%nat) by lia.
  assert (H3 : (K <= S (Z.to_nat (Z.min (min_len args) maxL)))%nat) by lia.
  rewrite (line_loop_run maxL fmt' args K Hne Hbound HK K 0%nat _ [] H1 H2 H3).
  reflexivity.
Qed.

Lemma two_columns_ok :
  forall a, a ∈ two_columns -> a ≠ [] /\ Z.of_nat (length a) < MaxInt64.
Proof.
  intros a Ha. unfold two_columns in Ha.
  repeat (apply elem_of_cons in Ha as [->|Ha]; [split; [discriminate|reflexivity]|]).
  by apply elem_of_nil in Ha.
Qed.

Lemma limitedLineWriter_lines_witness :
  two_columns ≠ [] /\
  (forall a, a ∈ two_columns -> a ≠ [] /\ Z.of_nat (length a) < MaxInt64) /\
  0 <= MaxInt64 /\
  limitedLineWriter 0 "%s %s" two_columns
  = Some ([Fprintf ("%s %s" +:+ nl) ["a"; "1"]; FprintfMore 2], Returned).
Proof.
  split; [discriminate|]. split; [exact two_columns_ok|]. split; [discriminate|].
  destruct (limitedLineWriter_lines 0 "%s %s" two_columns
              ltac:(discriminate) two_columns_ok ltac:(discriminate))
    as (fmt' & Hfmt & ->).
  injection Hfmt as <-. vm_compute. reflexivity.
Defined.

(** X19. With an empty column among its arguments [limitedLineWriter]
    panics (index out of range) before it writes anything. *)
Theorem limitedLineWriter_empty_column (maxLines : Z) (fmtStr : string)
    (args : list (list string)) :
  [] ∈ args ->
  limitedLineWriter maxLines fmtStr args = Some ([], Panicked).
Proof.
  intros Hin. unfold limitedLineWriter.
  destruct (with_newline_spec fmtStr) as (fmt' & -> & _). cbn [mbind option_bind].
  cbn [line_loop]. by rewrite (line_objs_empty_column args Hin).
Qed.

Lemma limitedLineWriter_empty_column_witness :
  [] ∈ [["a"]; []] /\
  limitedLineWriter 5 "%s %s" [["a"]; []] = Some ([], Panicked).
Proof.
  assert (Hin : ([] : list string) ∈ [["a"]; []]).
  { apply elem_of_cons. right. apply elem_of_cons. by left. }
  split; [exact Hin|].
  exact (limitedLineWriter_empty_column 5 "%s %s" [["a"]; []] Hin).
Defined.

(** *** Bucket properties from the command line *)

Example makeBckPropPairs_examples :
  makeBckPropPairs env_props ["access"] = Some Panic /\
  makeBckPropPairs env_props ["mirror.enabled"]
  = Some (Err "missing property %q value" ["mirror.enabled"]) /\
  makeBckPropPairs env_props ["colour"; "red"]
  = Some (Err "invalid property %q" ["colour"]) /\
  makeBckPropPairs env_props ["access"; "HEAD"] = Some (Failed "invalid access") /\
  parseBucketAccessValues env_props ["access"; "GET,PUT"; "x"] 1 = Some (3, 2%nat, None) /\
  parseBucketAccessValues env_props ["access"; "4"; "GET"; "x=y"] 1 = Some (5, 3%nat, None) /\
  parseBucketAccessValues env_props ["access"] 1 = None.
Proof. vm_compute. repeat split. Qed.

Lemma len_app (a b : string) : len (a +:+ b) = len a + len b.
Proof. rewrite !len_bytes, bytes_app, length_app. lia. Qed.

Lemma len_nonneg (s : string) : 0 <= len s.
Proof. unfold len. lia. Qed.

Lemma len_pos (s : string) : s ≠ "" -> 0 < len s.
Proof. destruct s; [done|]. intros _. unfold len. cbn [String.length]. lia. Qed.

Lemma slice_before (c : ascii) (k v : string) :
  slice (k +:+ String c v) 0 (len k) = Some k.
Proof.
  unfold slice. rewrite len_app. pose proof (len_nonneg k). pose proof (len_nonneg (String c v)).
  rewrite bool_decide_eq_true_2 by lia.
  f_equal. rewrite Z.sub_0_r. change (Z.to_nat 0) with 0%nat. rewrite drop_0.
  apply take_bytes_app.
Qed.

Lemma slice_after (c : ascii) (k v : string) :
  slice (k +:+ String c v) (len k + 1) (len (k +:+ String c v)) = Some v.
Proof.
  unfold slice. rewrite len_app. pose proof (len_nonneg k). pose proof (len_nonneg v).
  assert (Hlen : len (String c v) = 1 + len v) by (unfold len; cbn [String.length]; lia).
  rewrite bool_decide_eq_true_2 by lia.
  f_equal. apply bytes_inj. rewrite bytes_of_list, bytes_app, len_bytes.
  replace (Z.to_nat (Z.of_nat (length (bytes k)) + 1)) with (length (bytes k) + 1)%nat by lia.
  rewrite <- drop_drop, drop_app_length. cbn [bytes String.list_ascii_of_string drop].
  rewrite drop_0. apply take_ge. rewrite Hlen, len_bytes. unfold bytes. lia.
Qed.

Lemma lookup_middle {A : Type} (pre rest : list A) (x : A) :
  (pre ++ x :: rest) !! length pre = Some x.
Proof. by rewrite list_lookup_middle. Qed.

Lemma lookup_end {A : Type} (pre : list A) (n : nat) :
  (length pre <= n)%nat -> pre !! n = None.
Proof. apply lookup_ge_None_2. Qed.

Section BckProps.
Variable E : bck_props_env.

(** one item at the front of the values still to be read *)
Lemma bckProps_item (it : prop_item) (pre rest : list string) (fuel : nat)
    (nvs : gmap string string) :
  prop_item_ok E it ->
  bckProps_loop E (length (prop_tokens it) + fuel)
    (pre ++ prop_tokens it ++ rest) (length pre) "" nvs
  = bckProps_loop E fuel ((pre ++ prop_tokens it) ++ rest)
      (length (pre ++ prop_tokens it)) "" (prop_assign E nvs it).
Proof.
  intros Hok. destruct it as [k v|p v]; cbn [prop_item_ok prop_tokens prop_assign] in *.
  - destruct Hok as [Hk Hfree].
    cbn [length Nat.add bckProps_loop app]. rewrite lookup_middle. cbv zeta.
    change (k +:+ "=" +:+ v) with (k +:+ String "="%char v).
    rewrite (Index_char_first "="%char k v Hfree).
    rewrite bool_decide_eq_true_2 by (by apply len_pos).
    rewrite bool_decide_eq_false_2 by (intros H; by apply H).
    rewrite slice_before, slice_after.
    rewrite <- app_assoc, length_app. cbn [length app].
    replace (length pre + 1)%nat with (S (length pre)) by lia. reflexivity.
  - destruct Hok as (Hp & Hpne & Hacc & Hpf & Hvf & Hv).
    cbn [length Nat.add bckProps_loop app]. rewrite lookup_middle. cbv zeta.
    rewrite (Index_char_absent "="%char p Hpf).
    rewrite bool_decide_eq_false_2 by lia.
    rewrite (bool_decide_eq_false_2 ("" ≠ "")) by (intros H; by apply H).
    rewrite (bool_decide_eq_true_2 (p ∈ props E)) by exact Hp.
    rewrite (bool_decide_eq_true_2 ("" = "")) by reflexivity.
    cbn [andb negb]. rewrite bool_decide_eq_false_2 by exact Hacc.
    (* the value of the property *)
    replace (pre ++ p :: v :: rest) with ((pre ++ [p]) ++ v :: rest)
      by (by rewrite <- app_assoc).
    replace (S (length pre)) with (length (pre ++ [p]))
      by (rewrite length_app; cbn [length]; lia).
    rewrite lookup_middle. cbv zeta.
    rewrite (Index_char_absent "="%char v Hvf).
    rewrite bool_decide_eq_false_2 by lia.
    rewrite (bool_decide_eq_true_2 (p ≠ "")) by exact Hpne.
    rewrite (bool_decide_eq_false_2 (v ∈ props E)) by exact Hv.
    rewrite (bool_decide_eq_false_2 (p = "")) by exact Hpne.
    cbn [andb negb].
    rewrite <- !app_assoc, !length_app. cbn [length app].
    replace (S (length pre + 1)) with (length pre + 2)%nat by lia. reflexivity.
Qed.

(** the items are read one after the other; what follows them decides the
    result *)
Lemma bckProps_items (items : list prop_item) (rest : list string)
    (F : gmap string string -> go_result (gmap string string)) :
  Forall (prop_item_ok E) items ->
  (forall pre' nvs',
      bckProps_loop E (S (length rest)) (pre' ++ rest) (length pre') "" nvs'
      = Some (F nvs')) ->
  forall pre nvs,
    bckProps_loop E (length (items ≫= prop_tokens) + S (length rest))
      (pre ++ (items ≫= prop_tokens) ++ rest) (length pre) "" nvs
    = Some (F (foldl (prop_assign E) nvs items)).
Proof.
  intros Hok Htail. induction items as [|it items IH]; intros pre nvs.
  - cbn. apply Htail.
  - apply Forall_cons in Hok as [Hit Hok]. specialize (IH Hok).
    rewrite bind_cons, <- app_assoc, length_app, <- Nat.add_assoc.
    rewrite (bckProps_item it pre ((items ≫= prop_tokens) ++ rest) _ nvs Hit).
    cbn [foldl]. apply IH.
Qed.

Lemma makeBckPropPairs_items_then (items : list prop_item) (rest : list string)
    (F : gmap string string -> go_result (gmap string string)) :
  Forall (prop_item_ok E) items ->
  (forall pre' nvs',
      bckProps_loop E (S (length rest)) (pre' ++ rest) (length pre') "" nvs'
      = Some (F nvs')) ->
  makeBckPropPairs E ((items ≫= prop_tokens) ++ rest)
  = Some (F (foldl (prop_assign E) ∅ items)).
Proof.
  intros Hok Htail. unfold makeBckPropPairs.
  rewrite length_app, <- Nat.add_succ_r.
  exact (bckProps_items items rest F Hok Htail [] ∅).
Qed.

End BckProps.

Lemma two_prop_items_ok : Forall (prop_item_ok env_props) two_prop_items.
Proof.
  unfold two_prop_items.
  apply List.Forall_cons; [split; [discriminate|absent_byte]|].
  apply List.Forall_cons; [|apply List.Forall_nil].
  cbn [prop_item_ok env_props props HeaderBucketAccessAttrs].
  split; [apply elem_of_cons; right; apply elem_of_cons; by left|].
  split; [discriminate|]. split; [discriminate|].
  split; [absent_byte|]. split; [absent_byte|].
  intros Hin. repeat (apply elem_of_cons in Hin as [Hin|Hin]; [discriminate Hin|]).
  by apply elem_of_nil in Hin.
Qed.



(** X21. When the name of the access attributes is the last value,
    [makeBckPropPairs] panics: [parseBucketAccessValues] is called with the
    index just past the values and reads [values[idx]]. *)
Theorem makeBckPropPairs_trailing_access (E : bck_props_env) (items : list prop_item) :
  Forall (prop_item_ok E) items ->
  HeaderBucketAccessAttrs E ∈ props E ->
  "="%char ∉ bytes (HeaderBucketAccessAttrs E) ->
  makeBckPropPairs E ((items ≫= prop_tokens) ++ [HeaderBucketAccessAttrs E])
  = Some Panic.
Proof.
  intros Hok Hin Hfree.
  apply (makeBckPropPairs_items_then E items _ (fun _ => Panic) Hok).
  intros pre' nvs'. cbn [length bckProps_loop]. rewrite lookup_middle. cbv zeta.
  rewrite (Index_char_absent "="%char _ Hfree).
  rewrite bool_decide_eq_false_2 by lia.
  rewrite (bool_decide_eq_false_2 ("" ≠ "")) by (intros H; by apply H).
  rewrite (bool_decide_eq_true_2 (_ ∈ props E)) by exact Hin.
  rewrite (bool_decide_eq_true_2 ("" = "")) by reflexivity.
  cbn [andb negb]. rewrite bool_decide_eq_true_2 by reflexivity.
  unfold parseBucketAccessValues.
  rewrite bool_decide_eq_false_2 by (rewrite length_app; cbn [length]; lia).
  rewrite lookup_end by (rewrite length_app; cbn [length]; lia).
  reflexivity.
Qed.

Lemma makeBckPropPairs_trailing_access_witness :
  Forall (prop_item_ok env_props) two_prop_items /\
  HeaderBucketAccessAttrs env_props ∈ props env_props /\
  ("="%char ∉ bytes (HeaderBucketAccessAttrs env_props)) /\
  makeBckPropPairs env_props
    ["lru.enabled=true"; "mirror.enabled"; "false"; "access"] = Some Panic.
Proof.
  assert (Hin : HeaderBucketAccessAttrs env_props ∈ props env_props)
    by (apply elem_of_cons; by left).
  assert (Hfree : "="%char ∉ bytes (HeaderBucketAccessAttrs env_props)) by absent_byte.
  split; [exact two_prop_items_ok|]. split; [exact Hin|]. split; [exact Hfree|].
  exact (makeBckPropPairs_trailing_access env_props two_prop_items
           two_prop_items_ok Hin Hfree).
Defined.

(** X22. A value that stands where a property is expected, holds no [=]
    and is not a known property name makes [makeBckPropPairs] fail with
    "invalid property", whatever follows it. *)
Theorem makeBckPropPairs_invalid_property (E : bck_props_env)
    (items : list prop_item) (value : string) (more : list string) :
  Forall (prop_item_ok E) items ->
  value ∉ props E ->
  "="%char ∉ bytes value ->
  makeBckPropPairs E ((items ≫= prop_tokens) ++ value :: more)
  = Some (Err "invalid property %q" [value]).
Proof.
  intros Hok Hnot Hfree.
  apply (makeBckPropPairs_items_then E items _
           (fun _ => Err "invalid property %q" [value]) Hok).
  intros pre' nvs'. cbn [length bckProps_loop]. rewrite lookup_middle. cbv zeta.
  rewrite (Index_char_absent "="%char _ Hfree).
  rewrite bool_decide_eq_false_2 by lia.
  rewrite (bool_decide_eq_false_2 ("" ≠ "")) by (intros H; by apply H).
  rewrite (bool_decide_eq_false_2 (_ ∈ props E)) by exact Hnot.
  rewrite (bool_decide_eq_true_2 ("" = "")) by reflexivity.
  reflexivity.
Qed.

Lemma makeBckPropPairs_invalid_property_witness :
  Forall (prop_item_ok env_props) two_prop_items /\
  ("colour" ∉ props env_props) /\
  ("="%char ∉ bytes "colour") /\
  makeBckPropPairs env_props
    ["lru.enabled=true"; "mirror.enabled"; "false"; "colour"; "red"]
  = Some (Err "invalid property %q" ["colour"]).
Proof.
  assert (Hnot : "colour" ∉ props env_props).
  { intros Hin. cbn in Hin.
    repeat (apply elem_of_cons in Hin as [Hin|Hin]; [discriminate Hin|]).
    by apply elem_of_nil in Hin. }
  assert (Hfree : "="%char ∉ bytes "colour") by absent_byte.
  split; [exact two_prop_items_ok|]. split; [exact Hnot|]. split; [exact Hfree|].
  exact (makeBckPropPairs_invalid_property env_props two_prop_items "colour" ["red"]
           two_prop_items_ok Hnot Hfree).
Defined.

(** X23. A known property name, other than the access attributes, that is
    not followed by a value makes [makeBckPropPairs] fail with "missing
    property ... value": at the end of the values, before a [key=value], and
    before another property name. *)
Theorem makeBckPropPairs_missing_value (E : bck_props_env)
    (items : list prop_item) (p : string) (next : list string) :
  Forall (prop_item_ok E) items ->
  p ∈ props E -> p ≠ "" -> p ≠ HeaderBucketAccessAttrs E ->
  "="%char ∉ bytes p ->
  match next with
  | [] => True
  | q :: _ => 0 < strings_Index q "=" \/ (strings_Index q "=" <= 0 /\ q ∈ props E)
  end ->
  makeBckPropPairs E ((items ≫= prop_tokens) ++ p :: next)
  = Some (Err "missing property %q value" [p]).
Proof.
  intros Hok Hp Hpne Hacc Hfree Hnext.
  apply (makeBckPropPairs_items_then E items _
           (fun _ => Err "missing property %q value" [p]) Hok).
  intros pre' nvs'. cbn [length bckProps_loop]. rewrite lookup_middle. cbv zeta.
  rewrite (Index_char_absent "="%char _ Hfree).
  rewrite bool_decide_eq_false_2 by lia.
  rewrite (bool_decide_eq_false_2 ("" ≠ "")) by (intros H; by apply H).
  rewrite (bool_decide_eq_true_2 (_ ∈ props E)) by exact Hp.
  rewrite (bool_decide_eq_true_2 ("" = "")) by reflexivity.
  cbn [andb negb]. rewrite bool_decide_eq_false_2 by exact Hacc.
  destruct next as [|q more].
  - cbn [length bckProps_loop].
    rewrite lookup_end by (rewrite length_app; cbn [length]; lia).
    by rewrite bool_decide_eq_true_2 by exact Hpne.
  - cbn [length bckProps_loop].
    replace (pre' ++ p :: q :: more) with ((pre' ++ [p]) ++ q :: more)
      by (by rewrite <- app_assoc).
    replace (S (length pre')) with (length (pre' ++ [p]))
      by (rewrite length_app; cbn [length]; lia).
    rewrite lookup_middle. cbv zeta.
    rewrite (bool_decide_eq_true_2 (p ≠ "")) by exact Hpne.
    destruct Hnext as [Hpos|[Hpos Hq]].
    + by rewrite bool_decide_eq_true_2 by exact Hpos.
    + rewrite bool_decide_eq_false_2 by lia.
      rewrite (bool_decide_eq_true_2 (q ∈ props E)) by exact Hq. reflexivity.
Qed.

Lemma makeBckPropPairs_missing_value_witness :
  Forall (prop_item_ok env_props) two_prop_items /\
  makeBckPropPairs env_props
    ["lru.enabled=true"; "mirror.enabled"; "false"; "ec.enabled"; "mirror.enabled"]
  = Some (Err "missing property %q value" ["ec.enabled"]).
Proof.
  split; [exact two_prop_items_ok|].
  apply (makeBckPropPairs_missing_value env_props two_prop_items "ec.enabled"
           ["mirror.enabled"] two_prop_items_ok).
  - cbn. apply elem_of_cons. right. apply elem_of_cons. right. apply elem_of_cons. by left.
  - discriminate.
  - discriminate.
  - absent_byte.
  - right. split; [vm_compute; discriminate|].
    cbn. apply elem_of_cons. right. apply elem_of_cons. by left.
Defined.

Lemma access_loop_stops (E : bck_props_env) (goods : list string) (bad : string)
    (rest : list string) (err : error) :
  (forall g, g ∈ goods -> exists z, access_value E g = inl z) ->
  access_value E bad = inr err ->
  forall access newIdx,
    access_loop E (goods ++ bad :: rest) access newIdx
    = (foldl (or_access E) access goods, (newIdx + length goods)%nat, Some err).
Proof.
  intros Hgoods Hbad. induction goods as [|g goods IH]; intros access newIdx.
  - cbn [app access_loop foldl length]. unfold access_value in Hbad.
    destruct (ParseHexOrUint E bad) as [val [e1|]]; [|discriminate Hbad].
    destruct (StrToAccess E bad) as [acc [e2|]]; [|discriminate Hbad].
    injection Hbad as ->. by rewrite Nat.add_0_r.
  - cbn [app access_loop foldl length].
    destruct (Hgoods g ltac:(apply elem_of_cons; by left)) as [z Hz].
    assert (IH' := IH ltac:(intros g' Hg'; apply Hgoods, elem_of_cons; by right)).
    unfold or_access at 2. rewrite Hz. unfold access_value in Hz.
    destruct (ParseHexOrUint E g) as [val [e1|]].
    + destruct (StrToAccess E g) as [acc [e2|]]; [discriminate Hz|].
      injection Hz as ->. rewrite IH'. f_equal. f_equal. lia.
    + injection Hz as ->. rewrite IH'. f_equal. f_equal. lia.
Qed.

(** X24. Without a comma list, [parseBucketAccessValues] reads numbers and
    permissions from [values[idx]] on and stops at the first value that is
    neither. If it has read at least one value it returns their union and
    the index of the value it stopped at, and no error: the value is left to
    the caller. If the very first value is neither, it returns access 0 and
    the error of [cmn.StrToAccess]. *)
Theorem parseBucketAccessValues_stops (E : bck_props_env) (pre goods : list string)
    (bad : string) (rest : list string) (err : error) :
  (forall g, g ∈ goods -> exists z, access_value E g = inl z) ->
  access_value E bad = inr err ->
  strings_Index (hd bad goods) "," <= 0 ->
  parseBucketAccessValues E (pre ++ goods ++ bad :: rest) (length pre) =
    Some (match goods with
          | [] => (0, length pre, Some err)
          | _ :: _ =>
              (foldl (or_access E) 0 goods, (length pre + length goods)%nat, None)
          end).
Proof.
  intros Hgoods Hbad Hcomma. unfold parseBucketAccessValues.
  rewrite bool_decide_eq_false_2
    by (rewrite !length_app; cbn [length]; lia).
  assert (Hfirst : (pre ++ goods ++ bad :: rest) !! length pre = Some (hd bad goods)).
  { destruct goods as [|g goods]; cbn [hd app]; apply lookup_middle. }
  rewrite Hfirst. cbn [mbind option_bind].
  rewrite bool_decide_eq_false_2 by lia.
  rewrite drop_app_length.
  rewrite (access_loop_stops E goods bad rest err Hgoods Hbad 0 (length pre)).
  destruct goods as [|g goods].
  - cbn [length foldl]. rewrite Nat.add_0_r.
    by rewrite bool_decide_eq_true_2 by reflexivity.
  - rewrite bool_decide_eq_false_2 by (cbn [length]; lia). reflexivity.
Qed.

Lemma parseBucketAccessValues_stops_witness :
  (forall g, g ∈ ["4"; "GET"] -> exists z, access_value env_props g = inl z) /\
  access_value env_props "x=y" = inr "invalid access" /\
  strings_Index "4" "," <= 0 /\
  parseBucketAccessValues env_props ["access"; "4"; "GET"; "x=y"] 1
  = Some (5, 3%nat, None).
Proof.
  assert (Hgoods : forall g, g ∈ ["4"; "GET"] ->
                             exists z, access_value env_props g = inl z).
  { intros g Hg. apply elem_of_cons in Hg as [->|Hg]; [by exists 4|].
    apply elem_of_cons in Hg as [->|Hg]; [by exists 1|]. by apply elem_of_nil in Hg. }
  assert (Hbad : access_value env_props "x=y" = inr "invalid access") by reflexivity.
  assert (Hcomma : strings_Index "4" "," <= 0) by (vm_compute; discriminate).
  split; [exact Hgoods|]. split; [exact Hbad|]. split; [exact Hcomma|].
  exact (parseBucketAccessValues_stops env_props ["access"] ["4"; "GET"] "x=y" []
           "invalid access" Hgoods Hbad Hcomma).
Defined.

Lemma access_loop_index (E : bck_props_env) (rest : list string) :
  forall access newIdx a n e,
    access_loop E rest access newIdx = (a, n, e) -> (newIdx <= n)%nat.
Proof.
  induction rest as [|value rest IH]; intros access newIdx a n e Hrun;
    cbn [access_loop] in Hrun.
  - injection Hrun as _ <- _. lia.
  - destruct (ParseHexOrUint E value) as [val [e1|]].
    + destruct (StrToAccess E value) as [acc [e2|]].
      * injection Hrun as _ <- _. lia.
      * apply IH in Hrun. lia.
    + apply IH in Hrun. lia.
Qed.

Lemma parseBucketAccessValues_index (E : bck_props_env) (values : list string)
    (idx : nat) (a : Z) (n : nat) (e : option error) :
  parseBucketAccessValues E values idx = Some (a, n, e) -> (idx <= n)%nat.
Proof.
  unfold parseBucketAccessValues. case_bool_decide; [intros [= _ <- _]; lia|].
  destruct (values !! idx) as [value|]; [|discriminate]. cbn [mbind option_bind].
  case_bool_decide.
  - destruct (perms_loop E (strings_Split value ",") 0). intros [= _ <- _]. lia.
  - destruct (access_loop E (drop idx values) 0 idx) as [[a' n'] e'] eqn:Hloop.
    apply access_loop_index in Hloop.
    case_bool_decide; intros [= _ <- _]; lia.
Qed.

Lemma bckProps_loop_ends (E : bck_props_env) (values : list string) (fuel : nat) :
  forall idx cmd nvs,
    (length values - idx < fuel)%nat ->
    is_Some (bckProps_loop E fuel values idx cmd nvs).
Proof.
  induction fuel as [|fuel IH]; intros idx cmd nvs Hfuel; [lia|].
  cbn [bckProps_loop].
  destruct (values !! idx) as [value|] eqn:Hval.
  - apply lookup_lt_Some in Hval. cbv zeta.
    set (pos := strings_Index value "=").
    destruct (bool_decide (0 < pos)).
    + destruct (bool_decide (cmd <> "")); [by eexists|].
      destruct (slice value 0 pos) as [k|]; [|by eexists].
      destruct (slice value (pos + 1) (len value)) as [v|]; [|by eexists].
      apply IH. lia.
    + destruct (bool_decide (cmd <> "") && bool_decide (value ∈ props E));
        [by eexists|].
      destruct (bool_decide (cmd = "") && negb (bool_decide (value ∈ props E)));
        [by eexists|].
      destruct (bool_decide (cmd <> "")); [apply IH; lia|].
      destruct (bool_decide (value = HeaderBucketAccessAttrs E)); [|apply IH; lia].
      destruct (parseBucketAccessValues E values (S idx)) as [[[a n] [e|]]|] eqn:Hparse;
        try (by eexists).
      apply parseBucketAccessValues_index in Hparse. apply IH. lia.
  - destruct (bool_decide (cmd <> "")); by eexists.
Qed.

(** X25. [makeBckPropPairs] always comes to an end: every turn of its loop
    moves the index forward, also through [parseBucketAccessValues], so
    that after at most one turn per value it has returned a map, failed or
    panicked. *)
Theorem makeBckPropPairs_ends (E : bck_props_env) (values : list string) :
  exists r, makeBckPropPairs E values = Some r.
Proof.
  unfold makeBckPropPairs.
  destruct (bckProps_loop_ends E values (S (length values)) 0 "" ∅ ltac:(lia))
    as [r Hr].
  by exists r.
Qed.

Lemma no_columns_loop (maxLines : Z) (fmt : string) (N : nat) :
  Z.of_nat N = Z.max maxLines 1 ->
  forall d i fuel out,
    (i + d = N)%nat -> (1 <= d)%nat -> (d <= fuel)%nat ->
    line_loop fuel maxLines MaxInt64 fmt [] i out =
      Some (out ++ replicate d (Fprintf fmt []) ++
            [FprintfMore (MaxInt64 - Z.of_nat N)], Returned).
Proof.
  intros HN. induction d as [|d IH]; intros i fuel out Hid Hd Hfuel; [lia|].
  destruct fuel as [|fuel]; [lia|]. cbn [line_loop line_objs mapM existsb].
  change (mret []) with (Some ([] : list string)). cbv zeta.
  destruct d as [|d].
  - assert (HiN : S i = N) by lia. rewrite HiN.
    rewrite bool_decide_eq_true_2 by lia. cbn [replicate].
    by rewrite <- app_assoc.
  - rewrite bool_decide_eq_false_2 by lia.
    rewrite (IH (S i) fuel _ ltac:(lia) ltac:(lia) ltac:(lia)).
    cbn [replicate]. by rewrite <- !app_assoc.
Qed.

(** X26. Called without any column, [limitedLineWriter] writes the bare
    format line [n] times, [n] being [maxLines] counted as 1 when it is 0,
    and then ["(and k more)"] with [k = math.MaxInt64 - n]. *)
Theorem limitedLineWriter_no_columns (maxLines : Z) (fmtStr : string) :
  0 <= maxLines <= MaxInt64 ->
  exists fmt',
    with_newline fmtStr = Some fmt' /\
    let n := Z.to_nat (Z.max maxLines 1) in
    limitedLineWriter maxLines fmtStr [] =
      Some (replicate n (Fprintf fmt' []) ++ [FprintfMore (MaxInt64 - Z.of_nat n)],
            Returned).
Proof.
  intros Hmax. destruct (with_newline_spec fmtStr) as (fmt' & Hfmt & _).
  exists fmt'. split; [exact Hfmt|]. cbv zeta.
  unfold limitedLineWriter. rewrite Hfmt. cbn [mbind option_bind].
  assert ((maxLines <? 0)%Z = false) as -> by (apply Z.ltb_ge; lia).
  change (min_len []) with MaxInt64.
  set (N := Z.to_nat (Z.max maxLines 1)).
  assert (HN : Z.of_nat N = Z.max maxLines 1) by (unfold N; lia).
  assert (H1 : (0 + N = N)%nat) by reflexivity.
  assert (H2 : (1 <= N)%nat) by lia.
  assert (H3 : (N <= S (Z.to_nat (Z.min MaxInt64 maxLines)))%nat) by lia.
  rewrite (no_columns_loop maxLines fmt' N HN N 0%nat _ [] H1 H2 H3).
  reflexivity.
Qed.

Lemma limitedLineWriter_no_columns_witness :
  0 <= 2 <= MaxInt64 /\
  exists fmt',
    with_newline "-" = Some fmt' /\
    limitedLineWriter 2 "-" [] =
      Some (replicate (Z.to_nat (Z.max 2 1)) (Fprintf fmt' []) ++
            [FprintfMore (MaxInt64 - Z.of_nat (Z.to_nat (Z.max 2 1)))], Returned).
Proof.
  assert (H : 0 <= 2 <= MaxInt64) by (split; discriminate).
  split; [exact H|].
  exact (limitedLineWriter_no_columns 2 "-" H).
Defined.
